(** * Event claim manager: exactly-once claims over a transactional store

    A shallow embedding of [src/event_claim_manager]:
    - [table.py]: the status enumeration and the rows of
      [consumer_processed_events];
    - [exceptions.py]: the exception classes;
    - [event_claim_manager.py]: [SQLAlchemyEventClaimManager];
    - [unit_of_work.py]: [SQLAlchemyUnitOfWork].

    A coroutine is a tree of the session calls it awaits and of the log
    records it emits; a session interprets the calls.  The PostgreSQL
    session the tests run against is modelled with a committed table, the
    uncommitted writes of every open transaction and the table of
    transaction-level advisory locks. *)

From Stdlib Require Import ZArith String Ascii List Bool Lia DecimalString.
From stdpp Require Import base option list strings gmap.
Import ListNotations.

Local Open Scope Z_scope.

(** ** SHA-256 ([hashlib.sha256])

    Words are integers in [0, 2^32); bytes are integers in [0, 256). *)

Module SHA256.

Definition w32 (x : Z) : Z := x mod 2 ^ 32.

Definition add32 (x y : Z) : Z := w32 (x + y).

Definition rotr (n x : Z) : Z :=
  Z.lor (Z.shiftr x n) (w32 (Z.shiftl x (32 - n))).

Definition not32 (x : Z) : Z := Z.lxor x 0xffffffff.

Definition Ch (x y z : Z) : Z := Z.lxor (Z.land x y) (Z.land (not32 x) z).

Definition Maj (x y z : Z) : Z :=
  Z.lxor (Z.lxor (Z.land x y) (Z.land x z)) (Z.land y z).

Definition Sigma0 (x : Z) : Z := Z.lxor (Z.lxor (rotr 2 x) (rotr 13 x)) (rotr 22 x).
Definition Sigma1 (x : Z) : Z := Z.lxor (Z.lxor (rotr 6 x) (rotr 11 x)) (rotr 25 x).
Definition sigma0 (x : Z) : Z := Z.lxor (Z.lxor (rotr 7 x) (rotr 18 x)) (Z.shiftr x 3).
Definition sigma1 (x : Z) : Z := Z.lxor (Z.lxor (rotr 17 x) (rotr 19 x)) (Z.shiftr x 10).

(** The constants are fractional bits of roots of the first primes:
    [frac_root k p] is the first 32 bits of the fractional part of the
    [k]-th root of [p]. *)
Definition is_prime (n : nat) : bool :=
  forallb (fun d => negb (Nat.eqb (n mod d) 0)) (seq 2 (n - 2)).

Definition primes : list Z := map Z.of_nat (List.filter is_prime (seq 2 310)).

Fixpoint iroot (k n : Z) (bits : nat) (r : Z) : Z :=
  match bits with
  | O => r
  | S bits' =>
      let r' := r + 2 ^ Z.of_nat bits' in
      if r' ^ k <=? n then iroot k n bits' r' else iroot k n bits' r
  end.

Definition frac_root (k p : Z) : Z := w32 (iroot k (p * 2 ^ (32 * k)) 36 0).

(** Cube roots of the first sixty-four primes. *)
Definition K : list Z := map (frac_root 3) primes.

(** The eight chaining words. *)
Record state := State { ha : Z; hb : Z; hc : Z; hd : Z; he : Z; hf : Z; hg : Z; hh : Z }.

(** Square roots of the first eight primes. *)
Definition H0 : state :=
  State (frac_root 2 2) (frac_root 2 3) (frac_root 2 5) (frac_root 2 7)
        (frac_root 2 11) (frac_root 2 13) (frac_root 2 17) (frac_root 2 19).

(** Padding: a [0x80] byte, zero bytes up to 56 modulo 64, and the bit
    length of the message on eight bytes, most significant first. *)
Definition be_bytes (n : nat) (x : Z) : list Z :=
  map (fun i => (x / 2 ^ (8 * Z.of_nat i)) mod 256) (rev (seq 0 n)).

Definition pad (msg : list Z) : list Z :=
  let len := Z.of_nat (length msg) in
  msg ++ [0x80] ++ repeat 0 (Z.to_nat ((55 - len) mod 64)) ++ be_bytes 8 (8 * len).

Definition be_word (bs : list Z) : Z := fold_left (fun acc b => acc * 256 + b) bs 0.

Fixpoint chunks (fuel : nat) (n : nat) (bs : list Z) : list (list Z) :=
  match fuel with
  | O => []
  | S fuel' =>
      match bs with
      | [] => []
      | _ => firstn n bs :: chunks fuel' n (skipn n bs)
      end
  end.

Definition block_words (blk : list Z) : list Z := map be_word (chunks 16 4 blk).

(** The message schedule: sixteen block words extended to sixty-four. *)
Fixpoint extend (n : nat) (w : list Z) : list Z :=
  match n with
  | O => w
  | S n' =>
      let t := length w in
      let x := add32 (add32 (sigma1 (nth (t - 2) w 0)) (nth (t - 7) w 0))
                     (add32 (sigma0 (nth (t - 15) w 0)) (nth (t - 16) w 0)) in
      extend n' (w ++ [x])
  end.

Definition round (s : state) (kw : Z * Z) : state :=
  let t1 := add32 (add32 (add32 (hh s) (Sigma1 (he s))) (Ch (he s) (hf s) (hg s)))
                  (add32 (fst kw) (snd kw)) in
  let t2 := add32 (Sigma0 (ha s)) (Maj (ha s) (hb s) (hc s)) in
  State (add32 t1 t2) (ha s) (hb s) (hc s) (add32 (hd s) t1) (he s) (hf s) (hg s).

Definition compress (s : state) (blk : list Z) : state :=
  let w := extend 48 (block_words blk) in
  let r := fold_left round (combine K w) s in
  State (add32 (ha s) (ha r)) (add32 (hb s) (hb r)) (add32 (hc s) (hc r))
        (add32 (hd s) (hd r)) (add32 (he s) (he r)) (add32 (hf s) (hf r))
        (add32 (hg s) (hg r)) (add32 (hh s) (hh r)).

Definition digest_of (s : state) : list Z :=
  be_bytes 4 (ha s) ++ be_bytes 4 (hb s) ++ be_bytes 4 (hc s) ++ be_bytes 4 (hd s) ++
  be_bytes 4 (he s) ++ be_bytes 4 (hf s) ++ be_bytes 4 (hg s) ++ be_bytes 4 (hh s).

Definition sha256 (msg : list Z) : list Z :=
  let p := pad msg in
  digest_of (fold_left compress (chunks (length p) 64 p) H0).

End SHA256.

(** ** Strings and integers of the Python runtime *)

(** An event identifier is held as the byte string of its UTF-8 encoding,
    so [event_id.encode()] lists these bytes. *)
Definition encode (s : string) : list Z :=
  map (fun c => Z.of_N (N_of_ascii c)) (list_ascii_of_string s).

(** [int.from_bytes(bs, signed=True)]: the byte order is "big", the
    default since Python 3.11, the version [StrEnum] and [typing.Self]
    ask for. *)
Definition int_from_bytes_signed (bs : list Z) : Z :=
  let u := fold_left (fun acc b => acc * 256 + b) bs 0 in
  let bits := 8 * Z.of_nat (length bs) in
  if (0 <? bits) && (2 ^ (bits - 1) <=? u) then u - 2 ^ bits else u.

(** [str(n)] for an integer. *)
Definition str_int (n : Z) : string := NilZero.string_of_int (Z.to_int n).

(** ** [table.py] *)

(** [ProcessingStatus] *)
Inductive ProcessingStatus := PROCESSING | COMPLETED.

#[global] Instance ProcessingStatus_eq_dec : EqDecision ProcessingStatus.
Proof. solve_decision. Defined.

(** The columns of [consumer_processed_events_table], read as
    [c.event_id r] and so on.  [updated_at] is nullable. *)
Module c.
Record row := Row {
  event_id : string;
  status : ProcessingStatus;
  created_at : Z;
  updated_at : option Z
}.
End c.

(** ** [exceptions.py], and the exceptions of the libraries *)

Inductive exc_class :=
  | EventClaimException
  | AlreadyCompletedError
  | LockContentionError
  | ValueError
  | SQLAlchemyError
  | NoResultFound
  | MultipleResultsFound
  | CancelledError
  | KeyboardInterrupt.

#[global] Instance exc_class_eq_dec : EqDecision exc_class.
Proof. solve_decision. Defined.

(** [cls.__name__] *)
Definition __name__ (cls : exc_class) : string :=
  match cls with
  | EventClaimException => "EventClaimException"
  | AlreadyCompletedError => "AlreadyCompletedError"
  | LockContentionError => "LockContentionError"
  | ValueError => "ValueError"
  | SQLAlchemyError => "SQLAlchemyError"
  | NoResultFound => "NoResultFound"
  | MultipleResultsFound => "MultipleResultsFound"
  | CancelledError => "CancelledError"
  | KeyboardInterrupt => "KeyboardInterrupt"
  end.

(** [issubclass(cls, Exception)]: the last two derive from
    [BaseException] only, so [except Exception] lets them through. *)
Definition is_Exception (cls : exc_class) : bool :=
  match cls with
  | CancelledError | KeyboardInterrupt => false
  | _ => true
  end.

(** An exception instance: its class and [str(exc_val)]. *)
Record exc := Exc { exc_type : exc_class; exc_val : string }.

Inductive result (A : Type) : Type :=
  | Ok (a : A)
  | Err (e : exc).
Arguments Ok {A} a.
Arguments Err {A} e.

(** ** Logging *)

Inductive level := DEBUG | INFO | WARNING | ERROR.

Record log_record := LogRecord { levelname : level; message : string }.

(** ** Session calls and their results *)

(** The first column of a result row. *)
Inductive value :=
  | VBool (b : bool)
  | VStatus (s : ProcessingStatus).

#[global] Instance value_eq_dec : EqDecision value.
Proof. solve_decision. Defined.

(** Truth value of a column value; a status is a non-empty [str]. *)
Definition truthy (v : value) : bool :=
  match v with
  | VBool b => b
  | VStatus _ => true
  end.

(** The four statements the claim manager builds:
    - [SELECT pg_try_advisory_xact_lock(:key)];
    - [select(status).where(event_id == :event_id)];
    - [insert().values(event_id=:event_id, status=PROCESSING).on_conflict_do_nothing()];
    - [update().where(event_id == :event_id).values(status=COMPLETED)]. *)
Inductive stmt :=
  | TryAdvisoryXactLock (key : Z)
  | SelectStatus (event_id : string)
  | InsertProcessing (event_id : string)
  | UpdateCompleted (event_id : string).

(** What a coroutine awaits on its [AsyncSession]. *)
Inductive call :=
  | Execute (s : stmt)
  | Commit
  | Rollback.

(** [Result.scalar_one] and [Result.scalar_one_or_none] on the first
    columns of the rows of a result. *)
Definition scalar_one (rows : list value) : result value :=
  match rows with
  | [v] => Ok v
  | [] => Err (Exc NoResultFound "No row was found when one was required")
  | _ => Err (Exc MultipleResultsFound "Multiple rows were found when exactly one was required")
  end.

Definition scalar_one_or_none (rows : list value) : result (option value) :=
  match rows with
  | [] => Ok None
  | [v] => Ok (Some v)
  | _ => Err (Exc MultipleResultsFound "Multiple rows were found when one or none was required")
  end.

(** ** Coroutines

    A coroutine returns, raises, awaits a session call (and goes on with
    its result or the exception it raised), or emits a log record. *)

Inductive coro (A : Type) : Type :=
  | Return (a : A)
  | Raise (e : exc)
  | Await (c : call) (k : result (list value) -> coro A)
  | Log (r : log_record) (k : coro A).
Arguments Return {A} a.
Arguments Raise {A} e.
Arguments Await {A} c k.
Arguments Log {A} r k.

(** Continue with [kr] after a return and with [ke] after a raise. *)
Fixpoint handle {A B} (p : coro A) (kr : A -> coro B) (ke : exc -> coro B) : coro B :=
  match p with
  | Return a => kr a
  | Raise e => ke e
  | Await c k => Await c (fun r => handle (k r) kr ke)
  | Log r k => Log r (handle k kr ke)
  end.

Definition bind {A B} (p : coro A) (k : A -> coro B) : coro B := handle p k Raise.

Notation "x <- p ;; q" := (bind p (fun x => q))
  (at level 100, p at next level, right associativity).
Notation "p ;; q" := (bind p (fun _ => q))
  (at level 100, right associativity).

(** [try: p except BaseException as e: h e] *)
Definition try_except {A} (p : coro A) (h : exc -> coro A) : coro A := handle p Return h.

(** [try: p finally: f] *)
Definition try_finally {A} (p : coro A) (f : coro unit) : coro A :=
  handle p (fun a => f ;; Return a) (fun e => f ;; Raise e).

Definition lift {A} (r : result A) : coro A :=
  match r with
  | Ok a => Return a
  | Err e => Raise e
  end.

(** [await session.execute(stmt)], [await session.commit()],
    [await session.rollback()] *)
Definition await (c : call) : coro (list value) := Await c lift.

Definition log (lvl : level) (msg : string) : coro unit := Log (LogRecord lvl msg) (Return tt).

(** ** [event_claim_manager.py] *)

Module SQLAlchemyEventClaimManager.

(** An [async def] that awaits nothing: it runs to its [return] without
    suspending, so it is a function of [event_id]. *)
Definition _get_lock_key_for_event (event_id : string) : Z :=
  let hash := SHA256.sha256 (encode event_id) in
  int_from_bytes_signed (firstn 8 hash).

Definition _acquire_advisory_lock (event_id : string) : coro unit :=
  let lock_key := _get_lock_key_for_event event_id in
  log DEBUG ("Attempting to acquire advisory lock for event " +:+ event_id
             +:+ " (key: " +:+ str_int lock_key +:+ ")") ;;
  result <- await (Execute (TryAdvisoryXactLock lock_key)) ;;
  locked <- lift (scalar_one result) ;;
  if negb (truthy locked)
  then Raise (Exc LockContentionError
                  ("Event '" +:+ event_id +:+ "' is locked by another consumer."))
  else log DEBUG ("Advisory lock acquired for event: " +:+ event_id).

Definition _get_event_processing_state (event_id : string) : coro (option value) :=
  result <- await (Execute (SelectStatus event_id)) ;;
  lift (scalar_one_or_none result).

Definition _insert_event (event_id : string) : coro unit :=
  await (Execute (InsertProcessing event_id)) ;;
  Return tt.

Definition try_claim_event (event_id : string) : coro unit :=
  _acquire_advisory_lock event_id ;;
  current_state <- _get_event_processing_state event_id ;;
  if decide (current_state = Some (VStatus COMPLETED))
  then Raise (Exc AlreadyCompletedError
                  ("Event '" +:+ event_id +:+ "' already completed."))
  else
    (match current_state with
     | None =>
         log DEBUG ("Event ID '" +:+ event_id +:+ "' not found. Inserting new record.") ;;
         _insert_event event_id
     | Some _ => Return tt
     end) ;;
    log INFO ("Claim successfully established for Event '" +:+ event_id +:+ "'").

Definition mark_as_completed (event_id : string) : coro unit :=
  await (Execute (UpdateCompleted event_id)) ;;
  log INFO ("Marked event '" +:+ event_id +:+ "' as COMPLETED within transaction.").

End SQLAlchemyEventClaimManager.

(** ** [unit_of_work.py] *)

Module SQLAlchemyUnitOfWork.

Definition commit : coro unit := await Commit ;; Return tt.

Definition rollback : coro unit := await Rollback ;; Return tt.

Definition __aenter__ : coro unit := log DEBUG "UnitOfWork context entered".

(** The arguments [exc_type], [exc_val], [exc_tb] are those of one
    exception, or all [None]; the method returns [None]. *)
Definition __aexit__ (raised : option exc) : coro (option bool) :=
  try_finally
    (try_except
       (match raised with
        | Some e =>
            log WARNING ("Exception in UnitOfWork context: "
                         +:+ __name__ (exc_type e) +:+ ": " +:+ exc_val e) ;;
            rollback
        | None => commit
        end)
       (fun e =>
          if is_Exception (exc_type e)
          then log ERROR ("Error in UnitOfWork cleanup: " +:+ exc_val e) ;; Raise e
          else Raise e))
    (log DEBUG "UnitOfWork context exited") ;;
  Return None.

(** [async with uow: body].  The statement gives [Some a] when the body
    returned [a], and [None] when [__aexit__] returned a true value for
    an exception of the body, which is then dropped. *)
Definition async_with {A} (body : coro A) : coro (option A) :=
  __aenter__ ;;
  handle body
    (fun a => __aexit__ None ;; Return (Some a))
    (fun e =>
       suppress <- __aexit__ (Some e) ;;
       if default false suppress then Return None else Raise e).

End SQLAlchemyUnitOfWork.

Import SQLAlchemyEventClaimManager SQLAlchemyUnitOfWork.

(** ** Running a coroutine on a session *)

Inductive event :=
  | EvCall (c : call)
  | EvLog (r : log_record).

Record outcome (St A : Type) : Type :=
  Outcome { res : result A; final : St; events : list event }.
Arguments Outcome {St A} res final events.
Arguments res {St A} o.
Arguments final {St A} o.
Arguments events {St A} o.

(** A session answers a call from a store state, with a result or an
    exception, and a new store state. *)
Definition session (St : Type) : Type := call -> St -> result (list value) * St.

Fixpoint run {St A} (h : session St) (p : coro A) (st : St) : outcome St A :=
  match p with
  | Return a => Outcome (Ok a) st []
  | Raise e => Outcome (Err e) st []
  | Await c k =>
      let o := run h (k (fst (h c st))) (snd (h c st)) in
      Outcome (res o) (final o) (EvCall c :: events o)
  | Log r k =>
      let o := run h k st in
      Outcome (res o) (final o) (EvLog r :: events o)
  end.

(** The outcome [o] of a continuation, after the events [evs]. *)
Definition after {St A} (evs : list event) (o : outcome St A) : outcome St A :=
  Outcome (res o) (final o) (evs ++ events o).

Definition calls_of (evs : list event) : list call :=
  omap (fun ev => match ev with EvCall c => Some c | EvLog _ => None end) evs.

Definition logs_of (evs : list event) : list log_record :=
  omap (fun ev => match ev with EvLog r => Some r | EvCall _ => None end) evs.

(** ** The store: one PostgreSQL database and its sessions

    [committed] is the table as committed; [pending] holds, per session,
    the writes of its open transaction, in order; [locks] maps an advisory
    key to the session whose transaction holds it; [clock] is what
    [now()] gives.  A session reads the committed table with its own
    pending writes applied, and nobody else's.  A statement is answered
    at once: where PostgreSQL would make a write wait for another
    transaction to end, the write is kept pending and settled against
    the committed table when its transaction commits, an insert doing
    nothing there if the key has been committed meanwhile. *)

Inductive write :=
  | WInsert (event_id : string) (now : Z)
  | WUpdate (event_id : string) (now : Z).

(** The row the insert of the claim manager makes at time [now]: the
    statement gives [event_id] and [status]; [created_at] and
    [updated_at] have [server_default=func.now()]. *)
Definition new_row (event_id : string) (now : Z) : c.row :=
  c.Row event_id PROCESSING now (Some now).

Record pg := Pg {
  committed : list c.row;
  pending : gmap nat (list write);
  locks : gmap Z nat;
  clock : Z
}.

Definition has_row (event_id : string) (t : list c.row) : bool :=
  existsb (fun r => String.eqb (c.event_id r) event_id) t.

(** [INSERT ... ON CONFLICT DO NOTHING] under the primary key [event_id]. *)
Definition insert_do_nothing (r : c.row) (t : list c.row) : list c.row :=
  if has_row (c.event_id r) t then t else t ++ [r].

(** [UPDATE ... SET status = 'COMPLETED' WHERE event_id = :event_id] at
    time [now]; the column [updated_at] has [onupdate=func.now()]. *)
Definition completed_row (event_id : string) (now : Z) (r : c.row) : c.row :=
  if String.eqb (c.event_id r) event_id
  then c.Row (c.event_id r) COMPLETED (c.created_at r) (Some now)
  else r.

Definition update_status (event_id : string) (now : Z) (t : list c.row) : list c.row :=
  map (completed_row event_id now) t.

(** [SELECT status ... WHERE event_id = :event_id] *)
Definition select_status (event_id : string) (t : list c.row) : list value :=
  map (fun r => VStatus (c.status r))
      (List.filter (fun r => String.eqb (c.event_id r) event_id) t).

Definition apply_write (t : list c.row) (w : write) : list c.row :=
  match w with
  | WInsert event_id now => insert_do_nothing (new_row event_id now) t
  | WUpdate event_id now => update_status event_id now t
  end.

Definition apply_writes (ws : list write) (t : list c.row) : list c.row :=
  fold_left apply_write ws t.

Definition pending_of (s : nat) (d : pg) : list write := default [] (pending d !! s).

(** The table as session [s] sees it. *)
Definition view (s : nat) (d : pg) : list c.row :=
  apply_writes (pending_of s d) (committed d).

Definition add_write (s : nat) (w : write) (d : pg) : pg :=
  Pg (committed d) (<[s := pending_of s d ++ [w]]> (pending d)) (locks d) (clock d).

(** Ending the transaction of [s] releases its advisory locks. *)
Definition release (s : nat) (l : gmap Z nat) : gmap Z nat :=
  filter (fun kh => kh.2 <> s) l.

Definition pg_execute (s : nat) (q : stmt) (d : pg) : result (list value) * pg :=
  match q with
  | TryAdvisoryXactLock key =>
      match locks d !! key with
      | None => (Ok [VBool true], Pg (committed d) (pending d) (<[key := s]> (locks d)) (clock d))
      | Some holder =>
          if decide (holder = s) then (Ok [VBool true], d) else (Ok [VBool false], d)
      end
  | SelectStatus event_id => (Ok (select_status event_id (view s d)), d)
  | InsertProcessing event_id =>
      if has_row event_id (view s d)
      then (Ok [], d)
      else (Ok [], add_write s (WInsert event_id (clock d)) d)
  | UpdateCompleted event_id =>
      if has_row event_id (view s d)
      then (Ok [], add_write s (WUpdate event_id (clock d)) d)
      else (Ok [], d)
  end.

Definition pg_commit (s : nat) (d : pg) : pg :=
  Pg (view s d) (delete s (pending d)) (release s (locks d)) (clock d).

Definition pg_rollback (s : nat) (d : pg) : pg :=
  Pg (committed d) (delete s (pending d)) (release s (locks d)) (clock d).

(** The session of consumer [s]. *)
Definition pg_session (s : nat) : session pg :=
  fun c d =>
    match c with
    | Execute q => pg_execute s q d
    | Commit => (Ok [], pg_commit s d)
    | Rollback => (Ok [], pg_rollback s d)
    end.

(** A database with an empty table, no open transaction and no lock. *)
Definition pg_empty (now : Z) : pg := Pg [] ∅ ∅ now.

(** The primary key: no two committed rows share an [event_id]. *)
Definition keys (t : list c.row) : list string := map c.event_id t.

Definition pk_ok (d : pg) : Prop := NoDup (keys (committed d)).

(** The status of the row of [event_id], if there is one. *)
Definition stored_status (event_id : string) (t : list c.row) : option ProcessingStatus :=
  c.status <$> List.find (fun r => String.eqb (c.event_id r) event_id) t.

(** The advisory lock of [event_id] is free, or held by [s] already. *)
Definition lock_available (s : nat) (event_id : string) (d : pg) : Prop :=
  match locks d !! _get_lock_key_for_event event_id with
  | None => True
  | Some holder => holder = s
  end.

(** ** Two consumers on one database

    A coroutine gives way only where it awaits; its log calls do not
    suspend it.  [resume] lets a consumer make the call it is waiting on
    and run up to its next one. *)

Fixpoint to_await {A} (p : coro A) : coro A :=
  match p with
  | Log _ k => to_await k
  | _ => p
  end.

Definition resume {St A} (h : session St) (p : coro A) (st : St) : coro A * St :=
  match to_await p with
  | Await c k => (k (fst (h c st)), snd (h c st))
  | q => (q, st)
  end.

Inductive turn := TurnA | TurnB.

(** Consumers A and B take turns as [sched] says; when it is used up A
    and then B run to their end. *)
Fixpoint interleave {St A B} (ha : session St) (hb : session St)
    (sched : list turn) (pa : coro A) (pb : coro B) (st : St)
    : result A * result B * St :=
  match sched with
  | [] =>
      let oa := run ha pa st in
      let ob := run hb pb (final oa) in
      (res oa, res ob, final ob)
  | TurnA :: sched' =>
      interleave ha hb sched' (fst (resume ha pa st)) pb (snd (resume ha pa st))
  | TurnB :: sched' =>
      interleave ha hb sched' pa (fst (resume hb pb st)) (snd (resume hb pb st))
  end.

(** ** Anything that can happen to the database later

    Any session makes any call, or time passes. *)
Inductive env_step :=
  | SessionCall (s : nat) (c : call)
  | ClockTo (now : Z).

Definition env_run1 (d : pg) (e : env_step) : pg :=
  match e with
  | SessionCall s c => snd (pg_session s c d)
  | ClockTo now => Pg (committed d) (pending d) (locks d) now
  end.

Definition env_run (es : list env_step) (d : pg) : pg := fold_left env_run1 es d.

(** ** The operations of the two classes *)

Inductive operation :=
  | OpTryClaimEvent (event_id : string)
  | OpInsertEvent (event_id : string)
  | OpMarkAsCompleted (event_id : string)
  | OpCommit
  | OpRollback
  | OpExit (raised : option exc).

Definition coro_of (o : operation) : coro unit :=
  match o with
  | OpTryClaimEvent event_id => try_claim_event event_id
  | OpInsertEvent event_id => _insert_event event_id
  | OpMarkAsCompleted event_id => mark_as_completed event_id
  | OpCommit => commit
  | OpRollback => rollback
  | OpExit raised => __aexit__ raised ;; Return tt
  end.

(** Status only moves forward. *)
Definition status_le (a b : ProcessingStatus) : bool :=
  match a, b with
  | COMPLETED, PROCESSING => false
  | _, _ => true
  end.

(** Every row of [t] is still in [t'], with its [event_id] and
    [created_at], and a status that did not move back. *)
Definition table_le (t t' : list c.row) : Prop :=
  forall r, r ∈ t ->
    exists r', r' ∈ t' /\ c.event_id r' = c.event_id r /\
               c.created_at r' = c.created_at r /\
               status_le (c.status r) (c.status r') = true.

(** A record at [WARNING] or above among the log records emitted. *)
Definition logs_anomaly (evs : list event) : bool :=
  existsb (fun r => match levelname r with WARNING | ERROR => true | _ => false end)
          (logs_of evs).

(** The store once [s] holds the advisory lock of [event_id]. *)
Definition lock_taken (s : nat) (event_id : string) (d : pg) : pg :=
  Pg (committed d) (pending d)
     (<[_get_lock_key_for_event event_id := s]> (locks d)) (clock d).

(** What a claim logs and calls up to its read of the status. *)
Definition claim_prefix (event_id : string) : list event :=
  [ EvLog (LogRecord DEBUG
             ("Attempting to acquire advisory lock for event " +:+ event_id
              +:+ " (key: " +:+ str_int (_get_lock_key_for_event event_id) +:+ ")"));
    EvCall (Execute (TryAdvisoryXactLock (_get_lock_key_for_event event_id)));
    EvLog (LogRecord DEBUG ("Advisory lock acquired for event: " +:+ event_id));
    EvCall (Execute (SelectStatus event_id)) ].

Definition claim_established (event_id : string) : event :=
  EvLog (LogRecord INFO ("Claim successfully established for Event '" +:+ event_id +:+ "'")).

Definition already_completed (event_id : string) : exc :=
  Exc AlreadyCompletedError ("Event '" +:+ event_id +:+ "' already completed.").

Definition lock_contention (event_id : string) : exc :=
  Exc LockContentionError ("Event '" +:+ event_id +:+ "' is locked by another consumer.").

Definition marked_completed (event_id : string) : event :=
  EvLog (LogRecord INFO ("Marked event '" +:+ event_id
                         +:+ "' as COMPLETED within transaction.")).

(** How many rows of [t] have this [event_id]. *)
Definition count_rows (event_id : string) (t : list c.row) : nat :=
  length (List.filter (fun r => String.eqb (c.event_id r) event_id) t).

(** A coroutine that, whatever the session answers, only executes
    statements: it never commits or rolls back. *)
Fixpoint only_executes {A} (p : coro A) : Prop :=
  match p with
  | Return _ | Raise _ => True
  | Await c k => (exists q, c = Execute q) /\ forall r, only_executes (k r)
  | Log _ k => only_executes k
  end.

(** What a claim by [s] gives when nobody else holds the lock. *)
Definition solo (s : nat) (event_id : string) (d : pg) : result unit :=
  match stored_status event_id (view s d) with
  | Some COMPLETED => Err (already_completed event_id)
  | _ => Ok tt
  end.

(** In a race for [event_id], the consumer that is behind has not made
    its lock call yet, or has been refused. *)
Definition behind (event_id : string) (p : coro unit) : Prop :=
  p = try_claim_event event_id \/ p = Raise (lock_contention event_id).

(** The consumer whose lock call comes first; A when the schedule is
    used up before either made it. *)
Definition first_turn (sched : list turn) : turn :=
  match sched with
  | TurnB :: _ => TurnB
  | _ => TurnA
  end.

(** A pending write that marks [event_id] completed. *)
Definition marks (event_id : string) (w : write) : bool :=
  match w with
  | WUpdate e _ => String.eqb e event_id
  | WInsert _ _ => false
  end.

(** Every open transaction has marked only events whose lock it holds,
    as when [mark_as_completed] is called after a claim that succeeded in
    the same transaction. *)
Definition marks_claimed (d : pg) : Prop :=
  forall s event_id,
    existsb (marks event_id) (pending_of s d) = true ->
    locks d !! _get_lock_key_for_event event_id = Some s.

(** ** A consumer

    What the consumers of [test_concurrency.py] do with an event inside
    [async with uow]: claim it, then mark it completed. *)
Definition claim_and_complete (event_id : string) : coro (option unit) :=
  async_with (try_claim_event event_id ;; mark_as_completed event_id).

(** Session [s] has no open transaction: it has written nothing and
    holds no advisory lock. *)
Definition idle (s : nat) (d : pg) : Prop :=
  pending d !! s = None /\ forall key, locks d !! key <> Some s.

(** The open transactions of the sessions other than [s] are the same in
    [d] and [d']: same pending writes, same locks held. *)
Definition others_same (s : nat) (d d' : pg) : Prop :=
  forall s', s' <> s ->
    pending d' !! s' = pending d !! s'
    /\ forall key, locks d' !! key = Some s' <-> locks d !! key = Some s'.

(** ** The stages of a suspended coroutine *)

(** The call a coroutine is waiting on, if it has not ended. *)
Definition pending_call {A} (p : coro A) : option call :=
  match to_await p with
  | Await c _ => Some c
  | _ => None
  end.

(** How it goes on once that call is answered with [r]. *)
Definition answer {A} (p : coro A) (r : result (list value)) : coro A :=
  match to_await p with
  | Await _ k => k r
  | q => q
  end.

(** What it ended with, if it has ended. *)
Definition final_result {A} (p : coro A) : option (result A) :=
  match to_await p with
  | Return a => Some (Ok a)
  | Raise e => Some (Err e)
  | _ => None
  end.

(** A consumer whose lock call was answered with [false]. *)
Definition refused (event_id : string) : coro (option unit) :=
  answer (claim_and_complete event_id) (Ok [VBool false]).

(** What a consumer in a new transaction gives when nobody else holds
    the lock. *)
Definition consumer_result (event_id : string) (d : pg) : result (option unit) :=
  match stored_status event_id (committed d) with
  | Some COMPLETED => Err (already_completed event_id)
  | _ => Ok (Some tt)
  end.

(** In a race of two consumers, the one that is behind has not made its
    lock call, or was refused and has its rollback to make, or has ended
    with [LockContentionError]. *)
Definition consumer_behind (event_id : string) (p : coro (option unit)) : Prop :=
  p = claim_and_complete event_id
  \/ p = refused event_id
  \/ final_result p = Some (Err (lock_contention event_id)).

#[global] Instance level_eq_dec : EqDecision level.
Proof. solve_decision. Defined.

(** A record at level [lvl] among the log records emitted. *)
Definition has_level (lvl : level) (evs : list event) : bool :=
  existsb (fun r => bool_decide (levelname r = lvl)) (logs_of evs).

(** The check at the end of
    [test_consumer_b_can_process_after_a_fails_and_rolls_back]: the status
    of the event, read with [scalar_one]. *)
Definition read_final_status (event_id : string) : coro value :=
  result <- await (Execute (SelectStatus event_id)) ;;
  lift (scalar_one result).

#[global] Instance exc_eq_dec : EqDecision exc.
Proof. solve_decision. Defined.

#[global] Instance result_eq_dec {A} `{EqDecision A} : EqDecision (result A).
Proof. solve_decision. Defined.

(** ** The class hierarchy of [exceptions.py]

    The class a class derives from, among those modelled:
    [AlreadyCompletedError] and [LockContentionError] derive from
    [EventClaimException], and SQLAlchemy's two result errors from
    [SQLAlchemyError]. *)
Definition base_class (cls : exc_class) : option exc_class :=
  match cls with
  | AlreadyCompletedError | LockContentionError => Some EventClaimException
  | NoResultFound | MultipleResultsFound => Some SQLAlchemyError
  | _ => None
  end.

(** [issubclass(cls, expected)] *)
Definition issubclass (cls expected : exc_class) : bool :=
  bool_decide (cls = expected) || bool_decide (base_class cls = Some expected).

(** [try: p except expected: h] where [h] raises nothing and the
    statement gives nothing. *)
Definition except_pass (expected : exc_class) (p : coro unit) : coro unit :=
  try_except p (fun e => if issubclass (exc_type e) expected then Return tt else Raise e).

(** * Properties *)

(** ** Running coroutines *)

Lemma run_handle {St A B} (h : session St) (p : coro A)
    (kr : A -> coro B) (ke : exc -> coro B) (st : St) :
  run h (handle p kr ke) st =
  match res (run h p st) with
  | Ok a => after (events (run h p st)) (run h (kr a) (final (run h p st)))
  | Err e => after (events (run h p st)) (run h (ke e) (final (run h p st)))
  end.
Proof.
  revert st. induction p as [a | e | c k IH | r k IH]; intros st; cbn [handle run res final events].
  - destruct (run h (kr a) st); reflexivity.
  - destruct (run h (ke e) st); reflexivity.
  - rewrite IH. destruct (res (run h (k _) _)); reflexivity.
  - rewrite IH. destruct (res (run h k st)); reflexivity.
Qed.

Lemma run_bind {St A B} (h : session St) (p : coro A) (k : A -> coro B) (st : St) :
  run h (bind p k) st =
  match res (run h p st) with
  | Ok a => after (events (run h p st)) (run h (k a) (final (run h p st)))
  | Err e => Outcome (Err e) (final (run h p st)) (events (run h p st))
  end.
Proof.
  unfold bind. rewrite run_handle.
  destruct (res (run h p st)); [reflexivity |].
  unfold after. cbn [run res final events]. rewrite app_nil_r. reflexivity.
Qed.

Lemma calls_of_app evs evs' : calls_of (evs ++ evs') = calls_of evs ++ calls_of evs'.
Proof. unfold calls_of. apply omap_app. Qed.

Lemma logs_of_app evs evs' : logs_of (evs ++ evs') = logs_of evs ++ logs_of evs'.
Proof. unfold logs_of. apply omap_app. Qed.

Lemma calls_of_log r evs : calls_of (EvLog r :: evs) = calls_of evs.
Proof. reflexivity. Qed.

Lemma calls_of_call c evs : calls_of (EvCall c :: evs) = c :: calls_of evs.
Proof. reflexivity. Qed.

Lemma calls_of_nil : calls_of [] = [].
Proof. reflexivity. Qed.

Lemma logs_of_log r evs : logs_of (EvLog r :: evs) = r :: logs_of evs.
Proof. reflexivity. Qed.

Lemma logs_of_call c evs : logs_of (EvCall c :: evs) = logs_of evs.
Proof. reflexivity. Qed.

Lemma logs_of_nil : logs_of [] = [].
Proof. reflexivity. Qed.

Create Rewrite HintDb evs.
#[local] Hint Rewrite calls_of_app calls_of_log calls_of_call calls_of_nil
  logs_of_app logs_of_log logs_of_call logs_of_nil @app_nil_r @app_nil_l : evs.

Lemma lock_key_unfold event_id :
  _get_lock_key_for_event event_id
  = int_from_bytes_signed (firstn 8 (SHA256.sha256 (encode event_id))).
Proof. reflexivity. Qed.

#[local] Opaque _get_lock_key_for_event str_int String.append.

Lemma acquire_calls {St} (h : session St) (event_id : string) (st : St) :
  calls_of (events (run h (_acquire_advisory_lock event_id) st))
  = [Execute (TryAdvisoryXactLock (_get_lock_key_for_event event_id))].
Proof.
  unfold _acquire_advisory_lock. cbn.
  destruct (h _ st) as [[rows | e] st']; cbn; [| reflexivity].
  destruct rows as [| v [| v' rows]]; cbn; try reflexivity.
  destruct (truthy v); reflexivity.
Qed.

(** ** The lock key *)

Section LockKey.

Let byte_ok (b : Z) : Prop := 0 <= b < 256.

Lemma be_bytes_length n x : length (SHA256.be_bytes n x) = n.
Proof.
  unfold SHA256.be_bytes.
  rewrite length_map, length_rev, length_seq. reflexivity.
Qed.

Lemma be_bytes_range n x : Forall byte_ok (SHA256.be_bytes n x).
Proof.
  unfold SHA256.be_bytes. apply Forall_map, Forall_forall.
  intros i _. unfold byte_ok. apply Z.mod_pos_bound. lia.
Qed.

Lemma sha256_length msg : length (SHA256.sha256 msg) = 32%nat.
Proof.
  unfold SHA256.sha256, SHA256.digest_of.
  rewrite !length_app, !be_bytes_length. reflexivity.
Qed.

Lemma sha256_range msg : Forall byte_ok (SHA256.sha256 msg).
Proof.
  unfold SHA256.sha256, SHA256.digest_of.
  rewrite !Forall_app. repeat split; apply be_bytes_range.
Qed.

Lemma be_fold_bounds bs : forall a,
  0 <= a -> Forall byte_ok bs ->
  a * 256 ^ Z.of_nat (length bs)
    <= fold_left (fun acc b => acc * 256 + b) bs a
    < (a + 1) * 256 ^ Z.of_nat (length bs).
Proof.
  induction bs as [|b bs IH]; intros a Ha Hbs.
  - simpl. lia.
  - apply Forall_cons in Hbs as [Hb Hbs]. unfold byte_ok in Hb.
    cbn [fold_left length].
    specialize (IH (a * 256 + b) ltac:(lia) Hbs).
    rewrite Nat2Z.inj_succ, Z.pow_succ_r by lia.
    nia.
Qed.

Lemma int_from_bytes_signed_range bs :
  bs <> [] -> Forall byte_ok bs ->
  let bits := 8 * Z.of_nat (length bs) in
  (- 2 ^ (bits - 1)) <= int_from_bytes_signed bs < 2 ^ (bits - 1)
  /\ int_from_bytes_signed bs mod 2 ^ bits = SHA256.be_word bs.
Proof.
  intros Hne Hbs bits.
  pose proof (be_fold_bounds bs 0 ltac:(lia) Hbs) as Hu.
  assert (Hlen : 0 < Z.of_nat (length bs)) by (destruct bs; [done | simpl; lia]).
  assert (Hpow : 256 ^ Z.of_nat (length bs) = 2 ^ bits).
  { unfold bits. change 256 with (2 ^ 8). rewrite <- Z.pow_mul_r by lia. reflexivity. }
  assert (Hhalf : 2 ^ bits = 2 * 2 ^ (bits - 1)).
  { rewrite <- Z.pow_succ_r by (unfold bits; lia). f_equal. lia. }
  rewrite Hpow in Hu. unfold int_from_bytes_signed, SHA256.be_word. fold bits.
  set (u := fold_left _ bs 0) in *.
  assert ((0 <? bits) = true) as -> by (apply Z.ltb_lt; unfold bits; lia).
  cbn [andb]. destruct (Z.leb_spec (2 ^ (bits - 1)) u).
  - split; [lia |].
    rewrite <- (Z.mod_small u (2 ^ bits)) at 2 by lia.
    replace (u - 2 ^ bits) with (u + (-1) * 2 ^ bits) by lia.
    apply Z.mod_add. lia.
  - split; [lia |]. apply Z.mod_small. lia.
Qed.

End LockKey.

(** C7.  For every event identifier the lock key is the first eight bytes
    of the SHA-256 digest of the identifier read as a signed 64-bit
    integer, most significant byte first: the digest has 32 bytes, the
    key lies in [-2^63, 2^63), it is congruent modulo 2^64 to the
    unsigned value of these eight bytes, and it is a function of the
    identifier alone: whatever the session and the state of the store,
    the one call of [_acquire_advisory_lock] asks for the lock of that
    key. *)
Theorem lock_key_is_truncated_sha256 (event_id : string) :
  let digest := SHA256.sha256 (encode event_id) in
  length digest = 32%nat
  /\ _get_lock_key_for_event event_id = int_from_bytes_signed (firstn 8 digest)
  /\ (- 2 ^ 63) <= _get_lock_key_for_event event_id < 2 ^ 63
  /\ _get_lock_key_for_event event_id mod 2 ^ 64 = SHA256.be_word (firstn 8 digest)
  /\ (forall (St : Type) (h : session St) (st : St),
        calls_of (events (run h (_acquire_advisory_lock event_id) st))
        = [Execute (TryAdvisoryXactLock (_get_lock_key_for_event event_id))])
  /\ _get_lock_key_for_event "abc" = -5010229573455851542.
Proof.
  intros digest.
  split; [apply sha256_length |].
  split; [apply lock_key_unfold |].
  assert (Hk : (- 2 ^ 63) <= _get_lock_key_for_event event_id < 2 ^ 63
               /\ _get_lock_key_for_event event_id mod 2 ^ 64
                  = SHA256.be_word (firstn 8 digest)).
  { rewrite lock_key_unfold. fold digest.
    pose proof (sha256_length (encode event_id)) as Hlen.
    pose proof (sha256_range (encode event_id)) as Hrange.
    fold digest in Hlen, Hrange. clearbody digest.
    assert (Hlen8 : length (firstn 8 digest) = 8%nat).
    { rewrite length_firstn, Hlen. reflexivity. }
    assert (Hne : firstn 8 digest <> []).
    { intros E. rewrite E in Hlen8. discriminate. }
    apply (Forall_take _ 8%nat) in Hrange.
    destruct (int_from_bytes_signed_range _ Hne Hrange) as [Hb Hm].
    rewrite Hlen8 in Hb, Hm. change (8 * Z.of_nat 8) with 64 in Hb, Hm.
    change (64 - 1) with 63 in Hb. split; assumption. }
  destruct Hk as [Hb Hm].
  split; [exact Hb |]. split; [exact Hm |].
  split; [intros St h st; apply acquire_calls |].
  vm_compute. reflexivity.
Qed.

(** ** The unit of work *)

Lemma aexit_commit {St} (h : session St) (st : St) :
  run h (__aexit__ None) st =
  Outcome (match fst (h Commit st) with Ok _ => Ok None | Err e => Err e end)
          (snd (h Commit st))
          (EvCall Commit ::
           match fst (h Commit st) with
           | Ok _ => []
           | Err e =>
               if is_Exception (exc_type e)
               then [EvLog (LogRecord ERROR ("Error in UnitOfWork cleanup: " +:+ exc_val e))]
               else []
           end ++ [EvLog (LogRecord DEBUG "UnitOfWork context exited")]).
Proof.
  unfold __aexit__, commit. cbn.
  destruct (h Commit st) as [[rows | e] st']; cbn; [reflexivity |].
  destruct (is_Exception (exc_type e)); reflexivity.
Qed.

Lemma aexit_rollback {St} (h : session St) (raised : exc) (st : St) :
  run h (__aexit__ (Some raised)) st =
  Outcome (match fst (h Rollback st) with Ok _ => Ok None | Err e => Err e end)
          (snd (h Rollback st))
          (EvLog (LogRecord WARNING ("Exception in UnitOfWork context: "
                                     +:+ __name__ (exc_type raised) +:+ ": "
                                     +:+ exc_val raised)) ::
           EvCall Rollback ::
           match fst (h Rollback st) with
           | Ok _ => []
           | Err e =>
               if is_Exception (exc_type e)
               then [EvLog (LogRecord ERROR ("Error in UnitOfWork cleanup: " +:+ exc_val e))]
               else []
           end ++ [EvLog (LogRecord DEBUG "UnitOfWork context exited")]).
Proof.
  unfold __aexit__, rollback. cbn.
  destruct (h Rollback st) as [[rows | e] st']; cbn; [reflexivity |].
  destruct (is_Exception (exc_type e)); reflexivity.
Qed.

(** C6.  Leaving [async with uow] on any session: when the body returned,
    the one call made on exit is [commit]; when the body raised, it is
    [rollback].  The store is left as that call leaves it.  If the call
    raises, its exception is what the caller gets; otherwise the caller
    gets the value of the body, or the exception the body raised, the
    same one. *)
Theorem uow_exit_contract {St A : Type} (h : session St) (body : coro A) (st : St) :
  let ob := run h body st in
  let cleanup := match res ob with Ok _ => Commit | Err _ => Rollback end in
  let o := run h (async_with body) st in
  calls_of (events o) = calls_of (events ob) ++ [cleanup]
  /\ final o = snd (h cleanup (final ob))
  /\ res o = match fst (h cleanup (final ob)) with
             | Err cleanup_error => Err cleanup_error
             | Ok _ =>
                 match res ob with
                 | Ok a => Ok (Some a)
                 | Err e => Err e
                 end
             end.
Proof.
  intros ob cleanup o. subst o cleanup.
  unfold async_with, __aenter__. cbn [log bind handle run res final events].
  rewrite run_handle. fold ob.
  destruct (res ob) as [a | e].
  - rewrite run_bind, aexit_commit. cbn [res final events after].
    destruct (h Commit (final ob)) as [[rows | e'] st']; cbn [fst snd res final events after run].
    + autorewrite with evs. auto.
    + destruct (is_Exception (exc_type e')); autorewrite with evs; auto.
  - rewrite run_bind, aexit_rollback. cbn [res final events after].
    destruct (h Rollback (final ob)) as [[rows | e'] st']; cbn [fst snd res final events after run].
    + autorewrite with evs. auto.
    + destruct (is_Exception (exc_type e')); autorewrite with evs; auto.
Qed.

(** ** The table *)

Lemma has_row_true event_id t : has_row event_id t = true <-> event_id ∈ keys t.
Proof.
  unfold has_row, keys. induction t as [| r t IH]; cbn [existsb map].
  - split; [discriminate | intros H; inversion H].
  - rewrite orb_true_iff, IH, String.eqb_eq, elem_of_cons. intuition congruence.
Qed.

Lemma has_row_false event_id t : has_row event_id t = false <-> event_id ∉ keys t.
Proof.
  rewrite <- has_row_true. destruct (has_row event_id t); intuition congruence.
Qed.

Lemma keys_app t t' : keys (t ++ t') = keys t ++ keys t'.
Proof. apply map_app. Qed.

Lemma keys_update event_id now t : keys (update_status event_id now t) = keys t.
Proof.
  unfold keys, update_status, completed_row. rewrite map_map. apply map_ext.
  intros r. destruct (String.eqb _ _); reflexivity.
Qed.

Lemma insert_do_nothing_NoDup r t : NoDup (keys t) -> NoDup (keys (insert_do_nothing r t)).
Proof.
  intros H. unfold insert_do_nothing. destruct (has_row _ t) eqn:E; [exact H |].
  rewrite keys_app. apply NoDup_app. split; [exact H |]. split.
  - intros x Hx Hx'. cbn in Hx'. apply list_elem_of_singleton in Hx' as ->.
    apply has_row_false in E. contradiction.
  - cbn. apply NoDup_singleton.
Qed.

Lemma apply_write_NoDup w t : NoDup (keys t) -> NoDup (keys (apply_write t w)).
Proof.
  destruct w as [e now | e now]; cbn [apply_write].
  - apply insert_do_nothing_NoDup.
  - rewrite keys_update. auto.
Qed.

Lemma apply_writes_NoDup ws : forall t, NoDup (keys t) -> NoDup (keys (apply_writes ws t)).
Proof.
  unfold apply_writes. induction ws as [| w ws IH]; intros t H; cbn [fold_left]; [exact H |].
  apply IH, apply_write_NoDup, H.
Qed.

Lemma view_NoDup s d : pk_ok d -> NoDup (keys (view s d)).
Proof. apply apply_writes_NoDup. Qed.

Lemma stored_status_None event_id t :
  stored_status event_id t = None <-> has_row event_id t = false.
Proof.
  unfold stored_status, has_row. induction t as [| r t IH]; cbn [List.find existsb].
  - tauto.
  - destruct (String.eqb _ _); cbn; [split; discriminate | exact IH].
Qed.

(** Under the primary key a lookup by [event_id] gives at most one row. *)
Lemma select_status_stored event_id t :
  NoDup (keys t) ->
  select_status event_id t =
  match stored_status event_id t with
  | Some st => [VStatus st]
  | None => []
  end.
Proof.
  unfold select_status, stored_status. induction t as [| r t IH]; intros H; [reflexivity |].
  cbn [keys map] in H. apply NoDup_cons in H as [Hr Ht].
  cbn [List.filter List.find]. destruct (String.eqb (c.event_id r) event_id) eqn:E.
  - cbn. f_equal. apply String.eqb_eq in E. subst event_id.
    apply has_row_false in Hr. unfold has_row in Hr.
    clear IH Ht. induction t as [| r' t IH]; [reflexivity |].
    cbn [existsb] in Hr. apply orb_false_iff in Hr as [E1 E2].
    cbn [List.filter]. rewrite E1. auto.
  - apply IH, Ht.
Qed.

(** ** A claim on the store *)

#[local] Arguments view : simpl never.
#[local] Arguments select_status : simpl never.
#[local] Arguments has_row : simpl never.
#[local] Arguments add_write : simpl never.

Lemma view_lock_taken s s' event_id d : view s' (lock_taken s event_id d) = view s' d.
Proof. reflexivity. Qed.

Lemma try_lock_available s event_id d :
  lock_available s event_id d ->
  pg_execute s (TryAdvisoryXactLock (_get_lock_key_for_event event_id)) d
  = (Ok [VBool true], lock_taken s event_id d).
Proof.
  unfold lock_available, lock_taken. cbn [pg_execute].
  destruct (locks d !! _) as [holder |] eqn:E; [| reflexivity].
  intros ->. rewrite decide_True by reflexivity.
  rewrite insert_id by exact E. destruct d; reflexivity.
Qed.

Lemma try_lock_contended s holder event_id d :
  locks d !! _get_lock_key_for_event event_id = Some holder -> holder <> s ->
  pg_execute s (TryAdvisoryXactLock (_get_lock_key_for_event event_id)) d
  = (Ok [VBool false], d).
Proof.
  intros E Hne. cbn [pg_execute]. rewrite E, decide_False by exact Hne. reflexivity.
Qed.

(** A claim while another session holds the lock. *)
Lemma try_claim_event_contended s holder event_id d :
  locks d !! _get_lock_key_for_event event_id = Some holder -> holder <> s ->
  run (pg_session s) (try_claim_event event_id) d
  = Outcome (Err (lock_contention event_id)) d (firstn 2 (claim_prefix event_id)).
Proof.
  intros E Hne. unfold try_claim_event, _acquire_advisory_lock.
  cbn [log bind handle run res final events await pg_session].
  rewrite (try_lock_contended _ _ _ _ E Hne). reflexivity.
Qed.

(** A claim when the lock can be had: what it returns, the store it
    leaves, and what it logged and called, by the status it read. *)
Lemma try_claim_event_run s event_id d :
  pk_ok d -> lock_available s event_id d ->
  run (pg_session s) (try_claim_event event_id) d =
  match stored_status event_id (view s d) with
  | Some COMPLETED =>
      Outcome (Err (already_completed event_id)) (lock_taken s event_id d)
              (claim_prefix event_id)
  | Some PROCESSING =>
      Outcome (Ok tt) (lock_taken s event_id d)
              (claim_prefix event_id ++ [claim_established event_id])
  | None =>
      Outcome (Ok tt)
              (add_write s (WInsert event_id (clock d)) (lock_taken s event_id d))
              (claim_prefix event_id ++
               [ EvLog (LogRecord DEBUG ("Event ID '" +:+ event_id
                                         +:+ "' not found. Inserting new record."));
                 EvCall (Execute (InsertProcessing event_id));
                 claim_established event_id ])
  end.
Proof.
  intros Hpk Hlock. unfold try_claim_event, _acquire_advisory_lock, _get_event_processing_state.
  cbn [log bind handle run res final events await pg_session].
  rewrite (try_lock_available _ _ _ Hlock).
  cbn [fst snd lift scalar_one truthy negb bind handle log run res final events
       pg_session pg_execute].
  rewrite view_lock_taken, (select_status_stored _ _ (view_NoDup s d Hpk)).
  destruct (stored_status event_id (view s d)) as [[|] |] eqn:E.
  - reflexivity.
  - reflexivity.
  - cbn [lift scalar_one_or_none handle]. rewrite decide_False by discriminate.
    unfold _insert_event.
    cbn [log bind handle run res final events await pg_session pg_execute fst snd].
    rewrite view_lock_taken. apply stored_status_None in E. rewrite E. reflexivity.
Qed.

Lemma pending_of_add_write s w d : pending_of s (add_write s w d) = pending_of s d ++ [w].
Proof. unfold pending_of, add_write. cbn. rewrite lookup_insert_eq. reflexivity. Qed.

Lemma pending_of_add_write_ne s s' w d :
  s <> s' -> pending_of s' (add_write s w d) = pending_of s' d.
Proof. intros H. unfold pending_of, add_write. cbn. rewrite lookup_insert_ne by exact H. reflexivity. Qed.

Lemma view_add_write s w d : view s (add_write s w d) = apply_write (view s d) w.
Proof.
  unfold view. rewrite pending_of_add_write. unfold apply_writes.
  rewrite fold_left_app. reflexivity.
Qed.

Lemma view_add_write_ne s s' w d : s <> s' -> view s' (add_write s w d) = view s' d.
Proof. intros H. unfold view. rewrite pending_of_add_write_ne by exact H. reflexivity. Qed.

Lemma mark_as_completed_run s event_id d :
  run (pg_session s) (mark_as_completed event_id) d =
  Outcome (Ok tt)
          (if has_row event_id (view s d)
           then add_write s (WUpdate event_id (clock d)) d
           else d)
          [EvCall (Execute (UpdateCompleted event_id)); marked_completed event_id].
Proof.
  unfold mark_as_completed. cbn.
  destruct (has_row event_id (view s d)); reflexivity.
Qed.

Lemma stored_status_app_new event_id now t :
  has_row event_id t = false ->
  stored_status event_id (t ++ [new_row event_id now]) = Some PROCESSING.
Proof.
  unfold stored_status, has_row. induction t as [| r t IH]; cbn [existsb List.find app].
  - intros _. rewrite String.eqb_refl. reflexivity.
  - intros H. apply orb_false_iff in H as [E H]. rewrite E. auto.
Qed.

Lemma count_rows_app_new event_id now t :
  has_row event_id t = false ->
  count_rows event_id (t ++ [new_row event_id now]) = 1%nat.
Proof.
  unfold count_rows, has_row. induction t as [| r t IH]; cbn [existsb List.filter app].
  - intros _. rewrite String.eqb_refl. reflexivity.
  - intros H. apply orb_false_iff in H as [E H]. rewrite E. auto.
Qed.

Lemma lock_available_taken s event_id d : lock_available s event_id (lock_taken s event_id d).
Proof. unfold lock_available, lock_taken. cbn. rewrite lookup_insert_eq. reflexivity. Qed.

(** C4.  A claim that can have the lock fails with
    [AlreadyCompletedError] exactly when the status it reads is
    [COMPLETED]; with no row it succeeds and its view gains one
    [PROCESSING] row; with a [PROCESSING] row it succeeds and writes
    nothing; and a claim that succeeds has called the lock, then the read
    of the status, then the insert when there was no row, in that order. *)
Theorem try_claim_event_state_check (s : nat) (event_id : string) (d : pg) :
  pk_ok d -> lock_available s event_id d ->
  let o := run (pg_session s) (try_claim_event event_id) d in
  let key := _get_lock_key_for_event event_id in
  ((exists e, res o = Err e /\ exc_type e = AlreadyCompletedError)
     <-> stored_status event_id (view s d) = Some COMPLETED)
  /\ (stored_status event_id (view s d) = None ->
        res o = Ok tt
        /\ view s (final o) = view s d ++ [new_row event_id (clock d)]
        /\ stored_status event_id (view s (final o)) = Some PROCESSING)
  /\ (stored_status event_id (view s d) = Some PROCESSING ->
        res o = Ok tt /\ final o = lock_taken s event_id d)
  /\ (res o = Ok tt ->
        calls_of (events o) =
        [Execute (TryAdvisoryXactLock key); Execute (SelectStatus event_id)] ++
        match stored_status event_id (view s d) with
        | None => [Execute (InsertProcessing event_id)]
        | Some _ => []
        end).
Proof.
  intros Hpk Hlock o key. subst o key.
  rewrite (try_claim_event_run _ _ _ Hpk Hlock).
  destruct (stored_status event_id (view s d)) as [[|] |] eqn:E; cbn [res final events].
  - split; [split; [intros (e & [=] & _) | discriminate] |].
    repeat split; try discriminate.
  - split; [split; [intros _; reflexivity | intros _; eexists; split; reflexivity] |].
    repeat split; discriminate.
  - split; [split; [intros (e & [=] & _) | discriminate] |].
    apply stored_status_None in E.
    split; [intros _ | split; [discriminate | intros _; reflexivity]].
    rewrite view_add_write, view_lock_taken. cbn [apply_write].
    unfold insert_do_nothing. cbn [new_row c.event_id]. rewrite E.
    repeat split. apply stored_status_app_new, E.
Qed.

Lemma try_claim_event_state_check_witness :
  pk_ok (pg_empty 0) /\ lock_available 1 "e1" (pg_empty 0)
  /\ res (run (pg_session 1) (try_claim_event "e1") (pg_empty 0)) = Ok tt.
Proof.
  assert (H1 : pk_ok (pg_empty 0)) by apply NoDup_nil_2.
  assert (H2 : lock_available 1 "e1" (pg_empty 0)) by (vm_compute; exact I).
  split; [exact H1 |]. split; [exact H2 |].
  destruct (try_claim_event_state_check 1 "e1" (pg_empty 0) H1 H2) as (_ & Hnew & _).
  apply Hnew. reflexivity.
Defined.

(** C5.  For an event with no row yet, two claims in a row in one
    transaction both succeed; the second adds nothing to what the
    transaction sees, which holds exactly one row for the event under
    distinct keys, and so does the table once the transaction commits. *)
Theorem try_claim_event_twice (s : nat) (event_id : string) (d : pg) :
  pk_ok d -> lock_available s event_id d ->
  has_row event_id (view s d) = false ->
  let o1 := run (pg_session s) (try_claim_event event_id) d in
  let o2 := run (pg_session s) (try_claim_event event_id) (final o1) in
  res o1 = Ok tt /\ res o2 = Ok tt
  /\ view s (final o2) = view s (final o1)
  /\ count_rows event_id (view s (final o2)) = 1%nat
  /\ NoDup (keys (view s (final o2)))
  /\ count_rows event_id (committed (pg_commit s (final o2))) = 1%nat.
Proof.
  intros Hpk Hlock Hnew o1 o2.
  assert (E1 : o1 = Outcome (Ok tt)
                 (add_write s (WInsert event_id (clock d)) (lock_taken s event_id d))
                 (events o1)).
  { subst o1. rewrite (try_claim_event_run _ _ _ Hpk Hlock).
    apply stored_status_None in Hnew. rewrite Hnew. reflexivity. }
  set (d1 := add_write s _ _) in E1.
  assert (Hview1 : view s d1 = view s d ++ [new_row event_id (clock d)]).
  { subst d1. rewrite view_add_write, view_lock_taken. cbn [apply_write].
    unfold insert_do_nothing. cbn [new_row c.event_id]. rewrite Hnew. reflexivity. }
  assert (Hpk1 : pk_ok d1) by exact Hpk.
  assert (Hlock1 : lock_available s event_id d1) by apply lock_available_taken.
  assert (E2 : o2 = Outcome (Ok tt) (lock_taken s event_id d1) (events o2)).
  { subst o2. rewrite E1. cbn [final].
    rewrite (try_claim_event_run _ _ _ Hpk1 Hlock1), Hview1.
    rewrite (stored_status_app_new _ _ _ Hnew). reflexivity. }
  rewrite E2. rewrite E1 at 1 2. cbn [res final].
  rewrite view_lock_taken, Hview1.
  split; [reflexivity |]. split; [reflexivity |]. split; [reflexivity |].
  split; [apply count_rows_app_new, Hnew |].
  split.
  - rewrite <- Hview1. apply (view_NoDup s d1 Hpk1).
  - unfold pg_commit. cbn [committed]. rewrite view_lock_taken, Hview1.
    apply count_rows_app_new, Hnew.
Qed.

Lemma try_claim_event_twice_witness :
  pk_ok (pg_empty 0) /\ lock_available 1 "e1" (pg_empty 0)
  /\ has_row "e1" (view 1 (pg_empty 0)) = false
  /\ res (run (pg_session 1) (try_claim_event "e1")
            (final (run (pg_session 1) (try_claim_event "e1") (pg_empty 0)))) = Ok tt.
Proof.
  assert (H1 : pk_ok (pg_empty 0)) by apply NoDup_nil_2.
  assert (H2 : lock_available 1 "e1" (pg_empty 0)) by (vm_compute; exact I).
  assert (H3 : has_row "e1" (view 1 (pg_empty 0)) = false) by reflexivity.
  split; [exact H1 |]. split; [exact H2 |]. split; [exact H3 |].
  apply (try_claim_event_twice 1 "e1" (pg_empty 0) H1 H2 H3).
Defined.

(** C9 as the specification words it: [mark_as_completed] on an event
    without a row returns normally and logs a record at [WARNING] or
    above.  The code logs no such record. *)
Lemma mark_as_completed_logs_no_anomaly :
  ~ (forall (s : nat) (event_id : string) (d : pg),
       has_row event_id (view s d) = false ->
       let o := run (pg_session s) (mark_as_completed event_id) d in
       res o = Ok tt /\ logs_anomaly (events o) = true).
Proof.
  intros H. specialize (H 1%nat "e1" (pg_empty 0) eq_refl).
  destruct H as [_ H]. vm_compute in H. discriminate.
Qed.

(** C9, amended.  [mark_as_completed] on an event without a row returns
    normally and leaves the store as it was; it makes its one update call
    and logs the one [INFO] record it logs on every call, the same as
    when a row is updated, and nothing at [WARNING] or above. *)
Theorem mark_as_completed_zero_rows (s : nat) (event_id : string) (d : pg) :
  has_row event_id (view s d) = false ->
  let o := run (pg_session s) (mark_as_completed event_id) d in
  res o = Ok tt /\ final o = d
  /\ events o = [EvCall (Execute (UpdateCompleted event_id));
                 marked_completed event_id]
  /\ logs_anomaly (events o) = false
  /\ (forall (s' : nat) (d' : pg),
        events (run (pg_session s') (mark_as_completed event_id) d') = events o).
Proof.
  intros Hnew o. subst o. rewrite mark_as_completed_run, Hnew. cbn [res final events].
  repeat split. intros s' d'. rewrite mark_as_completed_run. reflexivity.
Qed.

Lemma mark_as_completed_zero_rows_witness :
  has_row "e1" (view 1 (pg_empty 0)) = false
  /\ final (run (pg_session 1) (mark_as_completed "e1") (pg_empty 0)) = pg_empty 0.
Proof.
  split; [reflexivity |].
  apply (mark_as_completed_zero_rows 1 "e1" (pg_empty 0)). reflexivity.
Defined.

Lemma stored_status_has_row event_id st t :
  stored_status event_id t = Some st -> has_row event_id t = true.
Proof.
  intros H. destruct (has_row event_id t) eqn:E; [reflexivity |].
  apply stored_status_None in E. congruence.
Qed.

Lemma update_status_lookup event_id now t (i : nat) :
  update_status event_id now t !! i = completed_row event_id now <$> t !! i.
Proof. unfold update_status. apply list_lookup_fmap. Qed.

(** C10.  A claim on an event whose row is [PROCESSING] succeeds and only
    takes the lock: the committed table, the pending writes and the clock
    are as before, so every session sees the table it saw, and the calls
    made are the lock and the read of the status.  [mark_as_completed]
    after it turns, in what the session sees, each row of that event into
    the same row with status [COMPLETED] and [updated_at] now, and leaves
    every other row, the committed table and what other sessions see as
    they were. *)
Theorem resume_claim_frame (s : nat) (event_id : string) (d : pg) :
  pk_ok d -> lock_available s event_id d ->
  stored_status event_id (view s d) = Some PROCESSING ->
  let o := run (pg_session s) (try_claim_event event_id) d in
  let o' := run (pg_session s) (mark_as_completed event_id) (final o) in
  (res o = Ok tt
   /\ committed (final o) = committed d
   /\ pending (final o) = pending d
   /\ clock (final o) = clock d
   /\ (forall s', view s' (final o) = view s' d)
   /\ calls_of (events o) =
       [Execute (TryAdvisoryXactLock (_get_lock_key_for_event event_id));
        Execute (SelectStatus event_id)])
  /\ (res o' = Ok tt
      /\ (forall i : nat,
            view s (final o') !! i = completed_row event_id (clock d) <$> view s d !! i)
      /\ (forall r, r ∈ view s d -> c.event_id r <> event_id -> r ∈ view s (final o'))
      /\ committed (final o') = committed d
      /\ (forall s', s' <> s -> view s' (final o') = view s' d)).
Proof.
  intros Hpk Hlock Hst o o'. subst o' o.
  rewrite (try_claim_event_run _ _ _ Hpk Hlock), Hst. cbn [res final events].
  split; [repeat split |].
  rewrite mark_as_completed_run, view_lock_taken, (stored_status_has_row _ _ _ Hst).
  cbn [res final]. change (clock (lock_taken s event_id d)) with (clock d).
  assert (Hview : view s (add_write s (WUpdate event_id (clock d))
                            (lock_taken s event_id d))
                  = update_status event_id (clock d) (view s d)).
  { rewrite view_add_write. reflexivity. }
  split; [reflexivity |]. split; [| split; [| split; [reflexivity |]]].
  - intros i. rewrite Hview. apply update_status_lookup.
  - intros r Hr Hne. rewrite Hview. unfold update_status.
    apply list_elem_of_fmap. exists r. split; [| exact Hr].
    unfold completed_row. apply String.eqb_neq in Hne. rewrite Hne. reflexivity.
  - intros s' Hne. rewrite view_add_write_ne by auto. reflexivity.
Qed.

Lemma resume_claim_frame_witness :
  let d := final (run (pg_session 1) (async_with (_insert_event "e1")) (pg_empty 0)) in
  pk_ok d /\ lock_available 2 "e1" d
  /\ stored_status "e1" (view 2 d) = Some PROCESSING
  /\ committed (final (run (pg_session 2) (try_claim_event "e1") d)) = committed d.
Proof.
  intros d.
  assert (H1 : pk_ok d) by (vm_compute; apply NoDup_singleton).
  assert (H2 : lock_available 2 "e1" d) by (vm_compute; exact I).
  assert (H3 : stored_status "e1" (view 2 d) = Some PROCESSING) by (vm_compute; reflexivity).
  split; [exact H1 |]. split; [exact H2 |]. split; [exact H3 |].
  destruct (resume_claim_frame 2 "e1" d H1 H2 H3) as ((_ & Hc & _) & _).
  exact Hc.
Defined.

(** ** The invariant of the store *)

Lemma status_le_refl a : status_le a a = true.
Proof. destruct a; reflexivity. Qed.

Lemma status_le_completed a : status_le a COMPLETED = true.
Proof. destruct a; reflexivity. Qed.

Lemma status_le_trans a b c : status_le a b = true -> status_le b c = true -> status_le a c = true.
Proof. destruct a, b, c; auto. Qed.

Lemma table_le_refl t : table_le t t.
Proof. intros r Hr. exists r. auto using status_le_refl. Qed.

Lemma table_le_trans t1 t2 t3 : table_le t1 t2 -> table_le t2 t3 -> table_le t1 t3.
Proof.
  intros H12 H23 r Hr.
  destruct (H12 r Hr) as (r2 & Hr2 & Hk2 & Hc2 & Hs2).
  destruct (H23 r2 Hr2) as (r3 & Hr3 & Hk3 & Hc3 & Hs3).
  exists r3. repeat split; try congruence. eapply status_le_trans; eauto.
Qed.

Lemma table_le_apply_write t w : table_le t (apply_write t w).
Proof.
  destruct w as [e now | e now]; cbn [apply_write]; intros r Hr.
  - exists r. split; [| auto using status_le_refl].
    unfold insert_do_nothing. destruct (has_row _ t); [exact Hr |].
    apply elem_of_app. left. exact Hr.
  - exists (completed_row e now r). split.
    + unfold update_status. apply list_elem_of_fmap. exists r. auto.
    + unfold completed_row. destruct (String.eqb _ e); cbn;
        auto using status_le_refl, status_le_completed.
Qed.

Lemma table_le_apply_writes ws : forall t, table_le t (apply_writes ws t).
Proof.
  unfold apply_writes. induction ws as [| w ws IH]; intros t; cbn [fold_left].
  - apply table_le_refl.
  - eapply table_le_trans; [apply table_le_apply_write | apply IH].
Qed.

Lemma table_le_view s d : table_le (committed d) (view s d).
Proof. apply table_le_apply_writes. Qed.

Lemma pg_execute_committed s q d : committed (snd (pg_execute s q d)) = committed d.
Proof.
  destruct q as [key | e | e | e]; cbn [pg_execute].
  - destruct (locks d !! key) as [holder |]; [destruct (decide _) |]; reflexivity.
  - reflexivity.
  - destruct (has_row e (view s d)); reflexivity.
  - destruct (has_row e (view s d)); reflexivity.
Qed.

(** One call of one session keeps the primary key and loses no
    committed row, nor moves a status back. *)
Lemma pg_session_invariant s c d :
  pk_ok d ->
  pk_ok (snd (pg_session s c d))
  /\ table_le (committed d) (committed (snd (pg_session s c d))).
Proof.
  intros Hpk. destruct c as [q | |]; cbn [pg_session snd].
  - unfold pk_ok. rewrite pg_execute_committed. split; [exact Hpk | apply table_le_refl].
  - split; [apply (view_NoDup s d Hpk) | apply table_le_view].
  - split; [exact Hpk | apply table_le_refl].
Qed.

(** So does any coroutine run by any session. *)
Lemma run_invariant {A} s (p : coro A) : forall d,
  pk_ok d ->
  pk_ok (final (run (pg_session s) p d))
  /\ table_le (committed d) (committed (final (run (pg_session s) p d))).
Proof.
  induction p as [a | e | c k IH | r k IH]; intros d Hpk; cbn [run final].
  - split; [exact Hpk | apply table_le_refl].
  - split; [exact Hpk | apply table_le_refl].
  - destruct (pg_session_invariant s c d Hpk) as [Hpk' Hle].
    destruct (IH (fst (pg_session s c d)) _ Hpk') as [Hpk'' Hle'].
    split; [exact Hpk'' | eapply table_le_trans; eassumption].
  - apply IH, Hpk.
Qed.

Lemma env_run_invariant es : forall d,
  pk_ok d -> pk_ok (env_run es d) /\ table_le (committed d) (committed (env_run es d)).
Proof.
  unfold env_run. induction es as [| e es IH]; intros d Hpk; cbn [fold_left].
  - split; [exact Hpk | apply table_le_refl].
  - assert (H1 : pk_ok (env_run1 d e) /\ table_le (committed d) (committed (env_run1 d e))).
    { destruct e as [s c | now]; cbn [env_run1].
      - apply pg_session_invariant, Hpk.
      - split; [exact Hpk | apply table_le_refl]. }
    destruct H1 as [Hpk1 Hle1]. destruct (IH _ Hpk1) as [Hpk2 Hle2].
    split; [exact Hpk2 | eapply table_le_trans; eassumption].
Qed.

(** What the session itself sees only grows while it executes
    statements. *)
Lemma pg_execute_view_le s q d : table_le (view s d) (view s (snd (pg_execute s q d))).
Proof.
  destruct q as [key | e | e | e]; cbn [pg_execute].
  - destruct (locks d !! key) as [holder |]; [destruct (decide _) |]; apply table_le_refl.
  - apply table_le_refl.
  - destruct (has_row e (view s d)); cbn [snd]; [apply table_le_refl |].
    rewrite view_add_write. apply table_le_apply_write.
  - destruct (has_row e (view s d)); cbn [snd]; [| apply table_le_refl].
    rewrite view_add_write. apply table_le_apply_write.
Qed.

Lemma run_view_le {A} s (p : coro A) : forall d,
  only_executes p -> table_le (view s d) (view s (final (run (pg_session s) p d))).
Proof.
  induction p as [a | e | c k IH | r k IH]; intros d Hp; cbn [run final].
  - apply table_le_refl.
  - apply table_le_refl.
  - destruct Hp as [[q ->] Hk]. eapply table_le_trans; [| apply IH, Hk].
    apply pg_execute_view_le.
  - apply IH, Hp.
Qed.

Lemma only_executes_handle {A B} (p : coro A) (kr : A -> coro B) (ke : exc -> coro B) :
  only_executes p -> (forall a, only_executes (kr a)) -> (forall e, only_executes (ke e)) ->
  only_executes (handle p kr ke).
Proof.
  intros Hp Hkr Hke. induction p as [a | e | c k IH | r k IH]; cbn [handle only_executes] in *.
  - apply Hkr.
  - apply Hke.
  - destruct Hp as [Hc Hk]. split; [exact Hc |]. intros r. apply IH, Hk.
  - apply IH, Hp.
Qed.

Lemma only_executes_bind {A B} (p : coro A) (k : A -> coro B) :
  only_executes p -> (forall a, only_executes (k a)) -> only_executes (bind p k).
Proof. intros Hp Hk. apply only_executes_handle; [exact Hp | exact Hk | intros e; exact I]. Qed.

Lemma only_executes_lift {A} (r : result A) : only_executes (lift r).
Proof. destruct r; exact I. Qed.

Lemma only_executes_await q : only_executes (await (Execute q)).
Proof. split; [eexists; reflexivity | apply only_executes_lift]. Qed.

Lemma only_executes_insert event_id : only_executes (_insert_event event_id).
Proof.
  unfold _insert_event. apply only_executes_bind; [apply only_executes_await | intros; exact I].
Qed.

Lemma only_executes_mark event_id : only_executes (mark_as_completed event_id).
Proof.
  unfold mark_as_completed. apply only_executes_bind; [apply only_executes_await | intros; exact I].
Qed.

Lemma only_executes_claim event_id : only_executes (try_claim_event event_id).
Proof.
  unfold try_claim_event, _acquire_advisory_lock, _get_event_processing_state.
  repeat (apply only_executes_bind; [| intros ?]);
    try apply only_executes_await; try apply only_executes_lift; try exact I.
  - destruct (negb _); exact I.
  - destruct (decide _); [exact I |].
    apply only_executes_bind; [| intros; exact I].
    match goal with |- only_executes (match ?x with Some _ => _ | None => _ end) =>
      destruct x as [v |] end; [exact I |].
    apply only_executes_bind; [exact I | intros; apply only_executes_insert].
Qed.

Lemma insert_do_nothing_conflict r t :
  has_row (c.event_id r) t = true -> insert_do_nothing r t = t.
Proof. intros H. unfold insert_do_nothing. rewrite H. reflexivity. Qed.

Lemma insert_event_conflict s event_id d :
  has_row event_id (view s d) = true ->
  final (run (pg_session s) (_insert_event event_id) d) = d.
Proof. intros H. unfold _insert_event. cbn. rewrite H. reflexivity. Qed.

(** C8.  Every operation of the two classes, run by any session on a
    store whose committed rows have distinct [event_id]s, leaves a store
    where they still have, in the committed table and in what every
    session sees; a status is [PROCESSING] or [COMPLETED]; every
    committed row is still there with its [event_id] and [created_at] and
    a status that did not go back from [COMPLETED]; while a session
    claims, inserts or marks, the same holds of the rows it sees; a
    commit makes the committed table what the session saw and a rollback
    leaves it as it was; and an insert on an [event_id] that has a row
    changes nothing. *)
Theorem store_invariant (s : nat) (o : operation) (d : pg) :
  pk_ok d ->
  let d' := final (run (pg_session s) (coro_of o) d) in
  NoDup (keys (committed d'))
  /\ (forall s', NoDup (keys (view s' d')))
  /\ (forall r, r ∈ committed d' -> c.status r = PROCESSING \/ c.status r = COMPLETED)
  /\ table_le (committed d) (committed d')
  /\ match o with
     | OpTryClaimEvent _ | OpInsertEvent _ | OpMarkAsCompleted _ =>
         table_le (view s d) (view s d') /\ committed d' = committed d
     | OpCommit | OpExit None => committed d' = view s d
     | OpRollback | OpExit (Some _) => committed d' = committed d
     end
  /\ (forall r t, has_row (c.event_id r) t = true -> insert_do_nothing r t = t)
  /\ (forall e, has_row e (view s d) = true ->
        final (run (pg_session s) (_insert_event e) d) = d).
Proof.
  intros Hpk d'.
  destruct (run_invariant s (coro_of o) d Hpk) as [Hpk' Hle]. fold d' in Hpk', Hle.
  split; [exact Hpk' |].
  split; [intros s'; apply view_NoDup, Hpk' |].
  split; [intros r _; destruct (c.status r); auto |].
  split; [exact Hle |].
  split; [| split; [intros r t; apply insert_do_nothing_conflict
                    | intros e; apply insert_event_conflict]].
  subst d'. destruct o as [e | e | e | | | [exn |]]; cbn [coro_of].
  - split; [apply run_view_le, only_executes_claim |].
    destruct (locks d !! _get_lock_key_for_event e) as [holder |] eqn:El.
    + destruct (decide (holder = s)) as [-> | Hne].
      * rewrite (try_claim_event_run s e d Hpk) by (unfold lock_available; rewrite El; reflexivity).
        destruct (stored_status e (view s d)) as [[|] |]; reflexivity.
      * rewrite (try_claim_event_contended s holder e d El Hne). reflexivity.
    + rewrite (try_claim_event_run s e d Hpk) by (unfold lock_available; rewrite El; exact I).
      destruct (stored_status e (view s d)) as [[|] |]; reflexivity.
  - split; [apply run_view_le, only_executes_insert |].
    unfold _insert_event. cbn. destruct (has_row e (view s d)); reflexivity.
  - split; [apply run_view_le, only_executes_mark |].
    rewrite mark_as_completed_run. cbn [final]. destruct (has_row e (view s d)); reflexivity.
  - reflexivity.
  - reflexivity.
  - rewrite run_bind, aexit_rollback. reflexivity.
  - rewrite run_bind, aexit_commit. reflexivity.
Qed.

Lemma store_invariant_witness :
  pk_ok (pg_empty 0)
  /\ NoDup (keys (committed (final (run (pg_session 1) (coro_of (OpTryClaimEvent "e1"))
                                      (pg_empty 0))))).
Proof.
  assert (H1 : pk_ok (pg_empty 0)) by apply NoDup_nil_2.
  split; [exact H1 |].
  destruct (store_invariant 1 (OpTryClaimEvent "e1") (pg_empty 0) H1) as [H _].
  exact H.
Defined.

(** ** Completed rows stay completed *)

Lemma stored_status_elem t : forall r,
  NoDup (keys t) -> r ∈ t -> stored_status (c.event_id r) t = Some (c.status r).
Proof.
  unfold stored_status. induction t as [| r0 t IH]; intros r Hnd Hr; [inversion Hr |].
  cbn [keys map] in Hnd. apply NoDup_cons in Hnd as [Hr0 Hnd].
  cbn [List.find]. apply elem_of_cons in Hr as [-> | Hr].
  - rewrite String.eqb_refl. reflexivity.
  - destruct (String.eqb (c.event_id r0) (c.event_id r)) eqn:E; [| apply IH; assumption].
    apply String.eqb_eq in E. exfalso. apply Hr0. rewrite E.
    unfold keys. apply list_elem_of_fmap. exists r. auto.
Qed.

Lemma stored_status_Some event_id st t :
  stored_status event_id t = Some st ->
  exists r, r ∈ t /\ c.event_id r = event_id /\ c.status r = st.
Proof.
  unfold stored_status. induction t as [| r0 t IH]; cbn [List.find]; [discriminate |].
  destruct (String.eqb (c.event_id r0) event_id) eqn:E.
  - intros [= <-]. apply String.eqb_eq in E. exists r0. split; [left | auto].
  - intros H. destruct (IH H) as (r & Hr & Hk & Hs). exists r. split; [right; exact Hr | auto].
Qed.

Lemma completed_stays event_id t t' :
  NoDup (keys t') -> table_le t t' ->
  stored_status event_id t = Some COMPLETED -> stored_status event_id t' = Some COMPLETED.
Proof.
  intros Hnd Hle H. destruct (stored_status_Some _ _ _ H) as (r & Hr & Hk & Hs).
  destruct (Hle r Hr) as (r' & Hr' & Hk' & _ & Hs').
  rewrite Hs in Hs'. destruct (c.status r') eqn:E; [discriminate |].
  rewrite <- Hk, <- Hk', <- E. apply stored_status_elem; assumption.
Qed.

Lemma stored_status_update event_id now t :
  has_row event_id t = true ->
  stored_status event_id (update_status event_id now t) = Some COMPLETED.
Proof.
  unfold stored_status, has_row, update_status.
  induction t as [| r t IH]; cbn [existsb map List.find]; [discriminate |].
  destruct (String.eqb (c.event_id r) event_id) eqn:E.
  - intros _.
    assert (Er : completed_row event_id now r
                 = c.Row (c.event_id r) COMPLETED (c.created_at r) (Some now)).
    { unfold completed_row. rewrite E. reflexivity. }
    rewrite Er. cbn [c.event_id]. rewrite E. reflexivity.
  - assert (Er : completed_row event_id now r = r).
    { unfold completed_row. rewrite E. reflexivity. }
    rewrite Er, E. exact IH.
Qed.




(** ** Rolling back a claim *)

Lemma release_lock_taken s key (l : gmap Z nat) :
  match l !! key with None => True | Some holder => holder = s end ->
  release s (<[key := s]> l) = release s l.
Proof.
  intros Hl. unfold release. apply map_eq. intros k. apply option_eq. intros h.
  rewrite !map_lookup_filter_Some, lookup_insert_Some. cbn [snd].
  split.
  - intros [[[-> ->] | [Hk Hh]] Hne]; [contradiction | auto].
  - intros [Hh Hne]. split; [| exact Hne]. right. split; [| exact Hh].
    intros ->. rewrite Hh in Hl. auto.
Qed.

Lemma release_frees s key (l : gmap Z nat) :
  match l !! key with None => True | Some holder => holder = s end ->
  release s l !! key = None.
Proof.
  intros Hl. unfold release. apply map_lookup_filter_None.
  destruct (l !! key) as [holder |]; [right | left; reflexivity].
  intros h [= <-]. cbn. auto.
Qed.

Lemma pg_rollback_add_write s w d : pg_rollback s (add_write s w d) = pg_rollback s d.
Proof.
  unfold pg_rollback, add_write. cbn [committed pending locks clock].
  rewrite delete_insert_eq. reflexivity.
Qed.

Lemma view_pg_rollback s s' d :
  view s' (pg_rollback s d) = if decide (s' = s) then committed d else view s' d.
Proof.
  unfold view, pending_of, pg_rollback. cbn [committed pending].
  destruct (decide (s' = s)) as [-> | Hne].
  - rewrite lookup_delete_eq. reflexivity.
  - rewrite lookup_delete_ne by auto. reflexivity.
Qed.

(** A rollback undoes all that its session executed. *)
Lemma pg_rollback_execute s q d : pg_rollback s (snd (pg_execute s q d)) = pg_rollback s d.
Proof.
  destruct q as [key | e | e | e]; cbn [pg_execute].
  - destruct (locks d !! key) as [holder |] eqn:E; [destruct (decide _); reflexivity |].
    cbn [snd]. unfold pg_rollback. cbn [committed pending locks clock].
    rewrite release_lock_taken by (rewrite E; exact I). reflexivity.
  - reflexivity.
  - destruct (has_row e (view s d)); [reflexivity | apply pg_rollback_add_write].
  - destruct (has_row e (view s d)); [apply pg_rollback_add_write | reflexivity].
Qed.

Lemma rollback_undoes {A} s (p : coro A) : forall d,
  only_executes p -> pg_rollback s (final (run (pg_session s) p d)) = pg_rollback s d.
Proof.
  induction p as [a | e | c k IH | r k IH]; intros d Hp; cbn [run final].
  - reflexivity.
  - reflexivity.
  - destruct Hp as [[q ->] Hk]. rewrite IH by apply Hk. apply pg_rollback_execute.
  - apply IH, Hp.
Qed.

(** A claim that succeeded had the lock available and did not read
    [COMPLETED]. *)
Lemma try_claim_event_ok s event_id d :
  pk_ok d ->
  res (run (pg_session s) (try_claim_event event_id) d) = Ok tt ->
  lock_available s event_id d
  /\ stored_status event_id (view s d) <> Some COMPLETED.
Proof.
  intros Hpk Hok.
  assert (Hlock : lock_available s event_id d).
  { unfold lock_available.
    destruct (locks d !! _get_lock_key_for_event event_id) as [holder |] eqn:El; [| exact I].
    destruct (decide (holder = s)) as [-> | Hne]; [reflexivity |].
    rewrite (try_claim_event_contended s holder event_id d El Hne) in Hok. discriminate. }
  split; [exact Hlock |].
  rewrite (try_claim_event_run s event_id d Hpk Hlock) in Hok.
  destruct (stored_status event_id (view s d)) as [[|] |]; cbn [res] in Hok; discriminate.
Qed.

Lemma stored_status_app event_id t t' :
  stored_status event_id (t ++ t') =
  match stored_status event_id t with
  | Some st => Some st
  | None => stored_status event_id t'
  end.
Proof.
  unfold stored_status. induction t as [| r t IH]; cbn [app List.find]; [reflexivity |].
  destruct (String.eqb (c.event_id r) event_id); [reflexivity | exact IH].
Qed.

Lemma stored_status_update_ne event_id e now t :
  e <> event_id -> stored_status event_id (update_status e now t) = stored_status event_id t.
Proof.
  intros Hne. unfold stored_status, update_status.
  induction t as [| r t IH]; cbn [map List.find]; [reflexivity |].
  unfold completed_row at 1 2. destruct (String.eqb (c.event_id r) e) eqn:E.
  - apply String.eqb_eq in E. cbn [c.event_id].
    assert (String.eqb (c.event_id r) event_id = false) as ->
      by (apply String.eqb_neq; congruence).
    exact IH.
  - destruct (String.eqb (c.event_id r) event_id); [reflexivity | exact IH].
Qed.

(** Only a write that marks the event makes it [COMPLETED]. *)
Lemma apply_write_completed event_id w t :
  marks event_id w = false ->
  stored_status event_id (apply_write t w) = Some COMPLETED ->
  stored_status event_id t = Some COMPLETED.
Proof.
  destruct w as [e now | e now]; cbn [marks apply_write]; intros Hm H.
  - unfold insert_do_nothing in H. destruct (has_row _ t); [exact H |].
    rewrite stored_status_app in H. destruct (stored_status event_id t); [exact H |].
    unfold stored_status, new_row in H. cbn in H.
    destruct (String.eqb e event_id); discriminate.
  - apply String.eqb_neq in Hm. rewrite stored_status_update_ne in H by exact Hm. exact H.
Qed.

Lemma apply_writes_completed event_id ws : forall t,
  existsb (marks event_id) ws = false ->
  stored_status event_id (apply_writes ws t) = Some COMPLETED ->
  stored_status event_id t = Some COMPLETED.
Proof.
  unfold apply_writes. induction ws as [| w ws IH]; intros t Hm H; cbn [fold_left] in *.
  - exact H.
  - cbn [existsb] in Hm. apply orb_false_iff in Hm as [Hw Hws].
    eapply apply_write_completed; [exact Hw |]. apply IH; assumption.
Qed.

Lemma pending_of_pg_rollback s s' d :
  pending_of s' (pg_rollback s d) = if decide (s' = s) then [] else pending_of s' d.
Proof.
  unfold pending_of, pg_rollback. cbn [pending]. destruct (decide (s' = s)) as [-> | Hne].
  - rewrite lookup_delete_eq. reflexivity.
  - rewrite lookup_delete_ne by auto. reflexivity.
Qed.

Lemma pending_of_pg_commit s s' d :
  pending_of s' (pg_commit s d) = if decide (s' = s) then [] else pending_of s' d.
Proof.
  unfold pending_of, pg_commit. cbn [pending]. destruct (decide (s' = s)) as [-> | Hne].
  - rewrite lookup_delete_eq. reflexivity.
  - rewrite lookup_delete_ne by auto. reflexivity.
Qed.

Lemma release_other s (l : gmap Z nat) key holder :
  l !! key = Some holder -> holder <> s -> release s l !! key = Some holder.
Proof. intros Hl Hne. unfold release. apply map_lookup_filter_Some. auto. Qed.

(** The discipline of [marks_claimed] holds of the empty database and is
    kept by every operation, given that a session marks an event only
    while it holds its lock. *)
Lemma marks_claimed_empty now : marks_claimed (pg_empty now).
Proof. intros s e H. discriminate. Qed.

Lemma marks_claimed_lock_taken s event_id d :
  lock_available s event_id d -> marks_claimed d -> marks_claimed (lock_taken s event_id d).
Proof.
  intros Hlock Hd s0 e0 Hm. specialize (Hd s0 e0 Hm). unfold lock_taken. cbn [locks].
  destruct (decide (_get_lock_key_for_event event_id = _get_lock_key_for_event e0)) as [E | E].
  - rewrite E. unfold lock_available in Hlock. rewrite E, Hd in Hlock. subst s0.
    apply lookup_insert_eq.
  - rewrite lookup_insert_ne by exact E. exact Hd.
Qed.

Lemma marks_claimed_add_write s w d :
  (forall event_id, marks event_id w = true ->
                    locks d !! _get_lock_key_for_event event_id = Some s) ->
  marks_claimed d -> marks_claimed (add_write s w d).
Proof.
  intros Hw Hd s0 e0 Hm. change (locks (add_write s w d)) with (locks d).
  destruct (decide (s = s0)) as [<- | Hne].
  - rewrite pending_of_add_write, existsb_app in Hm. apply orb_true_iff in Hm as [Hm | Hm].
    + apply Hd, Hm.
    + cbn [existsb] in Hm. rewrite orb_false_r in Hm. apply Hw, Hm.
  - rewrite pending_of_add_write_ne in Hm by exact Hne. apply Hd, Hm.
Qed.

Lemma marks_claimed_end s d :
  marks_claimed d -> marks_claimed (pg_commit s d) /\ marks_claimed (pg_rollback s d).
Proof.
  intros Hd. split; intros s0 e0 Hm.
  - rewrite pending_of_pg_commit in Hm. destruct (decide (s0 = s)); [discriminate |].
    apply release_other; auto.
  - rewrite pending_of_pg_rollback in Hm. destruct (decide (s0 = s)); [discriminate |].
    apply release_other; auto.
Qed.

(** X11. The discipline "an open transaction has marked completed only events
    whose advisory lock it holds" is kept by every operation of the claim
    manager and of the unit of work, provided [mark_as_completed] is called by
    a session that holds the event's lock. *)
Lemma marks_claimed_operation s (o : operation) d :
  pk_ok d -> marks_claimed d ->
  match o with
  | OpMarkAsCompleted event_id => locks d !! _get_lock_key_for_event event_id = Some s
  | _ => True
  end ->
  marks_claimed (final (run (pg_session s) (coro_of o) d)).
Proof.
  intros Hpk Hd Ho. destruct o as [e | e | e | | | [exn |]]; cbn [coro_of].
  - destruct (locks d !! _get_lock_key_for_event e) as [holder |] eqn:El.
    + destruct (decide (holder = s)) as [-> | Hne].
      * assert (Hlock : lock_available s e d) by (unfold lock_available; rewrite El; reflexivity).
        rewrite (try_claim_event_run s e d Hpk Hlock).
        destruct (stored_status e (view s d)) as [[|] |]; cbn [final];
          try apply marks_claimed_add_write; try apply marks_claimed_lock_taken;
          auto; discriminate.
      * rewrite (try_claim_event_contended s holder e d El Hne). exact Hd.
    + assert (Hlock : lock_available s e d) by (unfold lock_available; rewrite El; exact I).
      rewrite (try_claim_event_run s e d Hpk Hlock).
      destruct (stored_status e (view s d)) as [[|] |]; cbn [final];
        try apply marks_claimed_add_write; try apply marks_claimed_lock_taken;
        auto; discriminate.
  - unfold _insert_event. cbn. destruct (has_row e (view s d)); cbn [snd]; [exact Hd |].
    apply marks_claimed_add_write; [discriminate | exact Hd].
  - rewrite mark_as_completed_run. cbn [final]. destruct (has_row e (view s d)); [| exact Hd].
    apply marks_claimed_add_write; [| exact Hd].
    intros e0 Hm. cbn [marks] in Hm. apply String.eqb_eq in Hm. subst e0. exact Ho.
  - apply marks_claimed_end, Hd.
  - apply marks_claimed_end, Hd.
  - rewrite run_bind, aexit_rollback. apply marks_claimed_end, Hd.
  - rewrite run_bind, aexit_commit. apply marks_claimed_end, Hd.
Qed.

(** C3.  A claim succeeds, the transaction goes on executing statements
    in any way and then rolls back.  The store is then what rolling back
    without the claim would have left: the committed table is as before
    the claim, no row of the claim is left, the lock of the event is free
    and every other session sees what it saw.  The same holds when the
    work after the claim ends in an exception inside [async with uow],
    which the caller gets.  A claim on the event by any session then
    succeeds. *)
Theorem rollback_releases_claim (s : nat) (event_id : string) (work : coro unit) (d : pg) :
  pk_ok d -> marks_claimed d -> only_executes work ->
  res (run (pg_session s) (try_claim_event event_id) d) = Ok tt ->
  let d1 := final (run (pg_session s) (try_claim_event event_id ;; work) d) in
  let d2 := final (run (pg_session s) rollback d1) in
  d2 = pg_rollback s d
  /\ committed d2 = committed d
  /\ locks d2 !! _get_lock_key_for_event event_id = None
  /\ (forall s', view s' d2 = if decide (s' = s) then committed d else view s' d)
  /\ (forall exn : exc,
        let o := run (pg_session s)
                     (async_with ((try_claim_event event_id ;; work) ;; (Raise exn : coro unit)))
                     d in
        final o = d2
        /\ res o = match res (run (pg_session s) (try_claim_event event_id ;; work) d) with
                   | Ok _ => Err exn
                   | Err e => Err e
                   end)
  /\ (forall s', res (run (pg_session s') (try_claim_event event_id) d2) = Ok tt).
Proof.
  intros Hpk Hmarks Hwork Hok d1 d2.
  destruct (try_claim_event_ok s event_id d Hpk Hok) as (Hlock & Hst).
  assert (Hbody : forall q : coro unit, only_executes q ->
            only_executes (try_claim_event event_id ;; q)).
  { intros q Hq. apply only_executes_bind; [apply only_executes_claim | intros _; exact Hq]. }
  assert (Hd2 : d2 = pg_rollback s d).
  { subst d2 d1. apply (rollback_undoes s (try_claim_event event_id ;; work)), Hbody, Hwork. }
  assert (Hfree : locks d2 !! _get_lock_key_for_event event_id = None).
  { rewrite Hd2. apply release_frees, Hlock. }
  assert (Hcommitted : stored_status event_id (committed d) <> Some COMPLETED).
  { intros E. apply Hst.
    apply (completed_stays event_id (committed d));
      [apply view_NoDup, Hpk | apply table_le_view | exact E]. }
  split; [exact Hd2 |]. split; [rewrite Hd2; reflexivity |]. split; [exact Hfree |].
  split; [intros s'; rewrite Hd2; apply view_pg_rollback |].
  split.
  - intros exn o. subst o.
    unfold async_with, __aenter__. cbn [log bind handle run res final events].
    rewrite run_handle.
    change (handle ?p ?k Raise) with (bind p k).
    rewrite (run_bind _ (try_claim_event event_id ;; work)). fold d1.
    destruct (res (run (pg_session s) (try_claim_event event_id ;; work) d)) as [[] | e];
      cbn [after run res final events];
      rewrite run_bind, aexit_rollback; split; reflexivity.
  - intros s'.
    assert (Hpk2 : pk_ok d2) by (rewrite Hd2; exact Hpk).
    assert (Hlock2 : lock_available s' event_id d2).
    { unfold lock_available. rewrite Hfree. exact I. }
    rewrite (try_claim_event_run s' event_id d2 Hpk2 Hlock2).
    assert (Hview : stored_status event_id (view s' d2) <> Some COMPLETED).
    { rewrite Hd2, view_pg_rollback. destruct (decide (s' = s)) as [-> | Hne]; [exact Hcommitted |].
      intros E. apply Hcommitted. apply (apply_writes_completed event_id (pending_of s' d)).
      - destruct (existsb (marks event_id) (pending_of s' d)) eqn:Em; [| reflexivity].
        exfalso. specialize (Hmarks s' event_id Em).
        unfold lock_available in Hlock. rewrite Hmarks in Hlock. auto.
      - exact E. }
    destruct (stored_status event_id (view s' d2)) as [[|] |]; try reflexivity.
    contradiction.
Qed.

Lemma rollback_releases_claim_witness :
  let d1 := final (run (pg_session 1) (try_claim_event "e1" ;; Return tt) (pg_empty 0)) in
  let d2 := final (run (pg_session 1) rollback d1) in
  pk_ok (pg_empty 0) /\ marks_claimed (pg_empty 0) /\ only_executes (Return tt)
  /\ res (run (pg_session 1) (try_claim_event "e1") (pg_empty 0)) = Ok tt
  /\ d2 = pg_rollback 1 (pg_empty 0).
Proof.
  intros d1 d2.
  assert (H1 : pk_ok (pg_empty 0)) by apply NoDup_nil_2.
  assert (H2 : res (run (pg_session 1) (try_claim_event "e1") (pg_empty 0)) = Ok tt)
    by (vm_compute; reflexivity).
  split; [exact H1 |]. split; [apply marks_claimed_empty |]. split; [exact I |].
  split; [exact H2 |].
  destruct (rollback_releases_claim 1 "e1" (Return tt) (pg_empty 0)
              H1 (marks_claimed_empty 0) I H2) as [H _].
  exact H.
Defined.

(** ** Two consumers racing for one event *)

Lemma resume_log {St A} (h : session St) r (k : coro A) st :
  resume h (Log r k) st = resume h k st.
Proof. reflexivity. Qed.

(** Resuming a coroutine does not change where it ends. *)
Lemma run_resume {St A} (h : session St) (p : coro A) : forall st,
  res (run h (fst (resume h p st)) (snd (resume h p st))) = res (run h p st)
  /\ final (run h (fst (resume h p st)) (snd (resume h p st))) = final (run h p st).
Proof.
  induction p as [a | e | c k IH | r k IH]; intros st.
  - split; reflexivity.
  - split; reflexivity.
  - split; reflexivity.
  - rewrite resume_log. cbn [run res final]. apply IH.
Qed.

Lemma resume_only_executes {A} s (p : coro A) d :
  only_executes p -> only_executes (fst (resume (pg_session s) p d)).
Proof.
  induction p as [a | e | c k IH | r k IH]; intros Hp.
  - exact I.
  - exact I.
  - destruct Hp as [_ Hk]. apply Hk.
  - rewrite resume_log. apply IH, Hp.
Qed.

Lemma pg_execute_keeps_lock s q d key holder :
  locks d !! key = Some holder -> locks (snd (pg_execute s q d)) !! key = Some holder.
Proof.
  intros Hl. destruct q as [key' | e | e | e]; cbn [pg_execute].
  - destruct (locks d !! key') as [holder' |] eqn:E; [destruct (decide _); exact Hl |].
    cbn [snd locks]. rewrite lookup_insert_ne by congruence. exact Hl.
  - exact Hl.
  - destruct (has_row e (view s d)); exact Hl.
  - destruct (has_row e (view s d)); exact Hl.
Qed.

Lemma resume_keeps_lock {A} s (p : coro A) d key holder :
  only_executes p -> locks d !! key = Some holder ->
  locks (snd (resume (pg_session s) p d)) !! key = Some holder.
Proof.
  induction p as [a | e | c k IH | r k IH]; intros Hp Hl.
  - exact Hl.
  - exact Hl.
  - destruct Hp as [[q ->] _]. apply pg_execute_keeps_lock, Hl.
  - rewrite resume_log. apply IH; assumption.
Qed.

Lemma run_keeps_lock {A} s (p : coro A) key holder : forall d,
  only_executes p -> locks d !! key = Some holder ->
  locks (final (run (pg_session s) p d)) !! key = Some holder.
Proof.
  induction p as [a | e | c k IH | r k IH]; intros d Hp Hl; cbn [run final].
  - exact Hl.
  - exact Hl.
  - destruct Hp as [[q ->] Hk]. apply IH; [apply Hk |]. apply pg_execute_keeps_lock, Hl.
  - apply IH; assumption.
Qed.

Lemma resume_claim_contended s holder event_id d :
  locks d !! _get_lock_key_for_event event_id = Some holder -> holder <> s ->
  resume (pg_session s) (try_claim_event event_id) d = (Raise (lock_contention event_id), d).
Proof.
  intros El Hne. unfold try_claim_event, _acquire_advisory_lock, resume.
  cbn [log bind handle to_await await pg_session].
  rewrite (try_lock_contended _ _ _ _ El Hne). reflexivity.
Qed.

Lemma resume_claim_takes_lock s event_id d :
  lock_available s event_id d ->
  locks (snd (resume (pg_session s) (try_claim_event event_id) d))
    !! _get_lock_key_for_event event_id = Some s.
Proof.
  intros Hlock. unfold try_claim_event, _acquire_advisory_lock, resume.
  cbn [log bind handle to_await await pg_session].
  rewrite (try_lock_available _ _ _ Hlock). cbn [snd lock_taken locks].
  apply lookup_insert_eq.
Qed.

Lemma run_claim_takes_lock s event_id d :
  pk_ok d -> lock_available s event_id d ->
  res (run (pg_session s) (try_claim_event event_id) d) = solo s event_id d
  /\ locks (final (run (pg_session s) (try_claim_event event_id) d))
       !! _get_lock_key_for_event event_id = Some s.
Proof.
  intros Hpk Hlock. rewrite (try_claim_event_run s event_id d Hpk Hlock). unfold solo.
  destruct (stored_status event_id (view s d)) as [[|] |]; cbn [res final];
    (split; [reflexivity | apply lookup_insert_eq]).
Qed.

Section Race.

Variables (sa sb : nat) (event_id : string).
Hypothesis sessions_differ : sa <> sb.

Let key := _get_lock_key_for_event event_id.
Let behind := behind event_id.

Lemma behind_run s holder p d :
  behind p -> locks d !! key = Some holder -> holder <> s ->
  res (run (pg_session s) p d) = Err (lock_contention event_id)
  /\ final (run (pg_session s) p d) = d.
Proof.
  intros [-> | ->] El Hne.
  - rewrite (try_claim_event_contended s holder event_id d El Hne). split; reflexivity.
  - split; reflexivity.
Qed.

Lemma behind_resume s holder p d :
  behind p -> locks d !! key = Some holder -> holder <> s ->
  behind (fst (resume (pg_session s) p d)) /\ snd (resume (pg_session s) p d) = d.
Proof.
  intros [-> | ->] El Hne.
  - rewrite (resume_claim_contended s holder event_id d El Hne). split; [right |]; reflexivity.
  - split; [right |]; reflexivity.
Qed.

(** Once A holds the lock, B is refused whatever the schedule, and A ends
    as it would alone. *)
Lemma first_wins sched : forall (pa pb : coro unit) (d : pg),
  only_executes pa -> locks d !! key = Some sa -> behind pb ->
  fst (interleave (pg_session sa) (pg_session sb) sched pa pb d)
  = (res (run (pg_session sa) pa d), Err (lock_contention event_id)).
Proof.
  induction sched as [| [|] sched IH]; intros pa pb d Hpa Hl Hpb; cbn [interleave fst].
  - pose proof (run_keeps_lock sa pa key sa d Hpa Hl) as Hl'.
    destruct (behind_run sb sa pb _ Hpb Hl' sessions_differ) as [-> _]. reflexivity.
  - rewrite IH; [| apply resume_only_executes, Hpa | apply resume_keeps_lock; assumption | exact Hpb].
    f_equal. apply run_resume.
  - destruct (behind_resume sb sa pb d Hpb Hl sessions_differ) as [Hpb' ->].
    apply IH; assumption.
Qed.

Lemma second_wins sched : forall (pa pb : coro unit) (d : pg),
  only_executes pb -> locks d !! key = Some sb -> behind pa ->
  fst (interleave (pg_session sa) (pg_session sb) sched pa pb d)
  = (Err (lock_contention event_id), res (run (pg_session sb) pb d)).
Proof.
  induction sched as [| [|] sched IH]; intros pa pb d Hpb Hl Hpa; cbn [interleave fst].
  - destruct (behind_run sa sb pa d Hpa Hl (not_eq_sym sessions_differ)) as [-> ->].
    reflexivity.
  - destruct (behind_resume sa sb pa d Hpa Hl (not_eq_sym sessions_differ)) as [Hpa' ->].
    apply IH; assumption.
  - rewrite IH; [| apply resume_only_executes, Hpb | apply resume_keeps_lock; assumption | exact Hpa].
    f_equal. apply run_resume.
Qed.

End Race.

(** C1 as the specification words it fails on an event that is already
    [COMPLETED]: of two consumers claiming it before either ends its
    transaction, one is refused the lock and the other, which has it,
    fails with [AlreadyCompletedError]; none succeeds. *)
Lemma claims_on_completed_event_both_fail :
  let d := final (run (pg_session 1)
                      (async_with (try_claim_event "e1" ;; mark_as_completed "e1"))
                      (pg_empty 0)) in
  locks d !! _get_lock_key_for_event "e1" = None
  /\ fst (interleave (pg_session 2) (pg_session 3) [TurnA; TurnB; TurnA; TurnB]
                     (try_claim_event "e1") (try_claim_event "e1") d)
     = (Err (already_completed "e1"), Err (lock_contention "e1")).
Proof. vm_compute. split; reflexivity. Qed.

(** C1, amended.  Two sessions claim one event whose lock nobody holds,
    their calls interleaved in any way before either commits or rolls
    back.  The one whose lock call comes first ends as it would alone: it
    fails with [AlreadyCompletedError] when it sees the event
    [COMPLETED], and succeeds otherwise.  The other fails with
    [LockContentionError].  So never both succeed. *)
Theorem claims_exclude_each_other (sa sb : nat) (event_id : string) (d : pg)
    (sched : list turn) :
  sa <> sb -> pk_ok d ->
  locks d !! _get_lock_key_for_event event_id = None ->
  let rs := fst (interleave (pg_session sa) (pg_session sb) sched
                            (try_claim_event event_id) (try_claim_event event_id) d) in
  rs = match first_turn sched with
       | TurnA => (solo sa event_id d, Err (lock_contention event_id))
       | TurnB => (Err (lock_contention event_id), solo sb event_id d)
       end
  /\ rs <> (Ok tt, Ok tt).
Proof.
  intros Hne Hpk Hfree rs.
  assert (Hlock : forall s, lock_available s event_id d).
  { intros s. unfold lock_available. rewrite Hfree. exact I. }
  assert (Hrs : rs = match first_turn sched with
                     | TurnA => (solo sa event_id d, Err (lock_contention event_id))
                     | TurnB => (Err (lock_contention event_id), solo sb event_id d)
                     end).
  { subst rs. destruct sched as [| [|] sched]; cbn [first_turn interleave fst].
    - destruct (run_claim_takes_lock sa event_id d Hpk (Hlock sa)) as [-> Hl].
      rewrite (try_claim_event_contended sb sa event_id _ Hl Hne). reflexivity.
    - rewrite (first_wins sa sb event_id Hne);
        [| apply resume_only_executes, only_executes_claim
         | apply resume_claim_takes_lock, Hlock
         | left; reflexivity].
      f_equal.
      destruct (run_resume (pg_session sa) (try_claim_event event_id) d) as [-> _].
      apply run_claim_takes_lock; auto.
    - rewrite (second_wins sa sb event_id Hne);
        [| apply resume_only_executes, only_executes_claim
         | apply resume_claim_takes_lock, Hlock
         | left; reflexivity].
      f_equal.
      destruct (run_resume (pg_session sb) (try_claim_event event_id) d) as [-> _].
      apply run_claim_takes_lock; auto. }
  split; [exact Hrs |].
  rewrite Hrs. destruct (first_turn sched); intros [=].
Qed.

Lemma claims_exclude_each_other_witness :
  1%nat <> 2%nat /\ pk_ok (pg_empty 0)
  /\ locks (pg_empty 0) !! _get_lock_key_for_event "e1" = None
  /\ fst (interleave (pg_session 1) (pg_session 2) [TurnB; TurnA; TurnA; TurnB]
                     (try_claim_event "e1") (try_claim_event "e1") (pg_empty 0))
     <> (Ok tt, Ok tt).
Proof.
  assert (H0 : 1%nat <> 2%nat) by discriminate.
  assert (H1 : pk_ok (pg_empty 0)) by apply NoDup_nil_2.
  assert (H2 : locks (pg_empty 0) !! _get_lock_key_for_event "e1" = None) by reflexivity.
  split; [exact H0 |]. split; [exact H1 |]. split; [exact H2 |].
  destruct (claims_exclude_each_other 1 2 "e1" (pg_empty 0) [TurnB; TurnA; TurnA; TurnB]
              H0 H1 H2) as [_ H].
  exact H.
Defined.

(** ** A whole consumer transaction *)

Lemma count_rows_present event_id t :
  NoDup (keys t) -> has_row event_id t = true -> count_rows event_id t = 1%nat.
Proof.
  unfold count_rows, has_row. induction t as [| r t IH]; intros Hnd H; [discriminate |].
  cbn [keys map] in Hnd. apply NoDup_cons in Hnd as [Hr Hnd].
  cbn [existsb List.filter] in *. destruct (String.eqb (c.event_id r) event_id) eqn:E.
  - apply String.eqb_eq in E. subst event_id. cbn [length]. f_equal.
    apply has_row_false in Hr. unfold has_row in Hr. clear IH H Hnd.
    induction t as [| r' t IH]; [reflexivity |].
    cbn [existsb] in Hr. apply orb_false_iff in Hr as [E1 E2].
    cbn [List.filter]. rewrite E1. auto.
  - apply IH; assumption.
Qed.

Lemma count_rows_update event_id e now t :
  count_rows event_id (update_status e now t) = count_rows event_id t.
Proof.
  unfold count_rows, update_status. induction t as [| r t IH]; [reflexivity |].
  cbn [map List.filter].
  assert (Ek : c.event_id (completed_row e now r) = c.event_id r).
  { unfold completed_row. destruct (String.eqb _ e); reflexivity. }
  rewrite Ek. destruct (String.eqb (c.event_id r) event_id); cbn [length]; auto.
Qed.

Lemma has_row_insert r t : has_row (c.event_id r) (insert_do_nothing r t) = true.
Proof.
  unfold insert_do_nothing. destruct (has_row (c.event_id r) t) eqn:E; [exact E |].
  apply has_row_true. rewrite keys_app. apply elem_of_app. right. left.
Qed.

Lemma release_none s (l : gmap Z nat) key : release s l !! key <> Some s.
Proof.
  unfold release. intros H. apply map_lookup_filter_Some in H as [_ H]. cbn in H. auto.
Qed.

Lemma view_insert_pending s event_id d :
  view s (add_write s (WInsert event_id (clock d)) (lock_taken s event_id d))
  = insert_do_nothing (new_row event_id (clock d)) (view s d).
Proof. rewrite view_add_write. reflexivity. Qed.

(** The run of the body of a consumer, claim then mark, when the lock can
    be had. *)
Lemma claim_then_mark_run s event_id d :
  pk_ok d -> lock_available s event_id d ->
  let o := run (pg_session s) (try_claim_event event_id ;; mark_as_completed event_id) d in
  match stored_status event_id (view s d) with
  | Some COMPLETED =>
      res o = Err (already_completed event_id) /\ final o = lock_taken s event_id d
  | _ =>
      res o = Ok tt
      /\ view s (final o)
         = update_status event_id (clock d)
             (insert_do_nothing (new_row event_id (clock d)) (view s d))
      /\ pg_rollback s (final o) = pg_rollback s d
  end.
Proof.
  intros Hpk Hlock o. subst o. rewrite run_bind.
  rewrite (try_claim_event_run s event_id d Hpk Hlock).
  destruct (stored_status event_id (view s d)) as [[|] |] eqn:E; cbn [res final events after].
  - rewrite mark_as_completed_run, view_lock_taken, (stored_status_has_row _ _ _ E).
    cbn [res final]. split; [reflexivity |]. split.
    + rewrite view_add_write. cbn [apply_write]. rewrite view_lock_taken.
      rewrite insert_do_nothing_conflict by apply (stored_status_has_row _ _ _ E).
      reflexivity.
    + rewrite pg_rollback_add_write. unfold pg_rollback, lock_taken.
      cbn [committed pending locks clock]. rewrite release_lock_taken by exact Hlock.
      reflexivity.
  - split; reflexivity.
  - rewrite mark_as_completed_run, view_insert_pending.
    assert (Hin : has_row event_id
                    (insert_do_nothing (new_row event_id (clock d)) (view s d)) = true)
      by apply (has_row_insert (new_row event_id (clock d))).
    rewrite Hin.
    cbn [res final]. split; [reflexivity |]. split.
    + rewrite view_add_write. cbn [apply_write]. rewrite view_insert_pending. reflexivity.
    + rewrite !pg_rollback_add_write. unfold pg_rollback, lock_taken.
      cbn [committed pending locks clock]. rewrite release_lock_taken by exact Hlock.
      reflexivity.
Qed.

(** Leaving [async with uow] on the store. *)
Lemma async_with_pg {A} s (body : coro A) d :
  let ob := run (pg_session s) body d in
  let o := run (pg_session s) (async_with body) d in
  res o = match res ob with Ok a => Ok (Some a) | Err e => Err e end
  /\ final o = match res ob with
               | Ok _ => pg_commit s (final ob)
               | Err _ => pg_rollback s (final ob)
               end.
Proof.
  intros ob o. subst o. unfold async_with, __aenter__.
  cbn [log bind handle run res final events]. rewrite run_handle. fold ob.
  destruct (res ob) as [a | e]; cbn [after res final].
  - rewrite run_bind, aexit_commit. split; reflexivity.
  - rewrite run_bind, aexit_rollback. split; reflexivity.
Qed.

Lemma others_same_refl s d : others_same s d d.
Proof. intros s' _. split; [reflexivity | intros key; reflexivity]. Qed.

Lemma others_same_trans s d1 d2 d3 :
  others_same s d1 d2 -> others_same s d2 d3 -> others_same s d1 d3.
Proof.
  intros H12 H23 s' Hne. destruct (H12 s' Hne) as [Hp Hl]. destruct (H23 s' Hne) as [Hp' Hl'].
  split; [congruence |]. intros key. rewrite Hl'. apply Hl.
Qed.

Lemma others_same_add_write s w d : others_same s d (add_write s w d).
Proof.
  intros s' Hne. split; [| intros key; reflexivity].
  unfold add_write. cbn [pending]. apply lookup_insert_ne. auto.
Qed.

Lemma others_same_release s d d' :
  pending d' = delete s (pending d) ->
  locks d' = release s (locks d) -> others_same s d d'.
Proof.
  intros Hp Hl s' Hne. rewrite Hp, Hl. split; [apply lookup_delete_ne; auto |].
  intros key. unfold release. rewrite map_lookup_filter_Some. cbn [snd]. intuition congruence.
Qed.

(** A call of session [s] leaves the transactions of the others alone. *)
Lemma pg_session_others s c d : others_same s d (snd (pg_session s c d)).
Proof.
  destruct c as [q | |]; cbn [pg_session snd].
  - destruct q as [key | e | e | e]; cbn [pg_execute].
    + destruct (locks d !! key) as [holder |] eqn:E;
        [destruct (decide _); apply others_same_refl |].
      intros s' Hne. split; [reflexivity |]. intros key'. cbn [snd locks].
      rewrite lookup_insert_Some. split.
      * intros [[_ ->] | [_ H]]; [contradiction | exact H].
      * intros H. right. split; [congruence | exact H].
    + apply others_same_refl.
    + destruct (has_row e (view s d)); [apply others_same_refl | apply others_same_add_write].
    + destruct (has_row e (view s d)); [apply others_same_add_write | apply others_same_refl].
  - apply others_same_release; reflexivity.
  - apply others_same_release; reflexivity.
Qed.

Lemma run_others {A} s (p : coro A) : forall d,
  others_same s d (final (run (pg_session s) p d)).
Proof.
  induction p as [a | e | c k IH | r k IH]; intros d; cbn [run final].
  - apply others_same_refl.
  - apply others_same_refl.
  - eapply others_same_trans; [apply pg_session_others | apply IH].
  - apply IH.
Qed.

Lemma idle_after_commit s d : idle s (pg_commit s d).
Proof.
  split; [apply lookup_delete_eq | intros key; apply release_none].
Qed.

Lemma idle_after_rollback s d : idle s (pg_rollback s d).
Proof.
  split; [apply lookup_delete_eq | intros key; apply release_none].
Qed.

Lemma async_with_idle {A} s (body : coro A) d :
  idle s (final (run (pg_session s) (async_with body) d)).
Proof.
  destruct (async_with_pg s body d) as [_ ->].
  destruct (res (run (pg_session s) body d));
    [apply idle_after_commit | apply idle_after_rollback].
Qed.

(** X5.  A unit of work around any body that only executes statements is
    all or nothing on the store.  When the body raises, the caller gets
    its exception and the store is what a rollback before the body would
    have left.  When it returns, the committed table becomes what the
    session saw at the end of the body.  Either way the session is left
    with no pending write and no advisory lock, and the pending writes
    and locks of every other session are what they were. *)
Theorem unit_of_work_all_or_nothing {A : Type} (s : nat) (body : coro A) (d : pg) :
  only_executes body ->
  let ob := run (pg_session s) body d in
  let o := run (pg_session s) (async_with body) d in
  match res ob with
  | Ok a => res o = Ok (Some a) /\ committed (final o) = view s (final ob)
  | Err e => res o = Err e /\ final o = pg_rollback s d
  end
  /\ idle s (final o)
  /\ others_same s d (final o).
Proof.
  intros Hbody ob o. destruct (async_with_pg s body d) as [Hres Hfinal].
  fold ob o in Hres, Hfinal.
  split; [| split].
  - destruct (res ob) as [a | e]; rewrite Hres, Hfinal; split; try reflexivity.
    apply rollback_undoes, Hbody.
  - subst o. apply async_with_idle.
  - subst o. apply run_others.
Qed.

Lemma unit_of_work_all_or_nothing_witness :
  only_executes (mark_as_completed "e1")
  /\ idle 1 (final (run (pg_session 1) (async_with (mark_as_completed "e1")) (pg_empty 0))).
Proof.
  split; [apply only_executes_mark |].
  apply (unit_of_work_all_or_nothing 1 (mark_as_completed "e1") (pg_empty 0)).
  apply only_executes_mark.
Defined.

(** The run of a consumer when the lock can be had. *)
Lemma claim_and_complete_run s event_id d :
  pk_ok d -> lock_available s event_id d ->
  let o := run (pg_session s) (claim_and_complete event_id) d in
  match stored_status event_id (view s d) with
  | Some COMPLETED =>
      res o = Err (already_completed event_id) /\ final o = pg_rollback s d
  | _ =>
      res o = Ok (Some tt)
      /\ committed (final o)
         = update_status event_id (clock d)
             (insert_do_nothing (new_row event_id (clock d)) (view s d))
  end.
Proof.
  intros Hpk Hlock o.
  destruct (async_with_pg s (try_claim_event event_id ;; mark_as_completed event_id) d)
    as [Hres Hfinal].
  pose proof (claim_then_mark_run s event_id d Hpk Hlock) as Hbody. cbv zeta in Hbody.
  unfold claim_and_complete in o. fold o in Hres, Hfinal.
  destruct (stored_status event_id (view s d)) as [[|] |];
    [destruct Hbody as (Hb & Hv & _) | destruct Hbody as (Hb & Hf) | destruct Hbody as (Hb & Hv & _)];
    rewrite Hb in Hres, Hfinal; rewrite Hres, Hfinal.
  - split; [reflexivity |]. cbn [pg_commit committed]. exact Hv.
  - split; [reflexivity |]. rewrite Hf. unfold pg_rollback, lock_taken.
    cbn [committed pending locks clock]. rewrite release_lock_taken by exact Hlock.
    reflexivity.
  - split; [reflexivity |]. cbn [pg_commit committed]. exact Hv.
Qed.

(** X1.  A consumer that can have the lock of an event it does not see
    [COMPLETED] returns normally.  The committed table is then what the
    session saw, with a row for the event added at the end if there was
    none, and every row of the event made [COMPLETED] with [updated_at]
    now: the event has exactly one row, its status is [COMPLETED], and
    every row of another event is there unchanged.  The session is left
    with no pending write and no lock. *)
Theorem claim_and_complete_commits (s : nat) (event_id : string) (d : pg) :
  pk_ok d -> lock_available s event_id d ->
  stored_status event_id (view s d) <> Some COMPLETED ->
  let o := run (pg_session s) (claim_and_complete event_id) d in
  res o = Ok (Some tt)
  /\ committed (final o)
     = update_status event_id (clock d)
         (insert_do_nothing (new_row event_id (clock d)) (view s d))
  /\ stored_status event_id (committed (final o)) = Some COMPLETED
  /\ count_rows event_id (committed (final o)) = 1%nat
  /\ (forall r, r ∈ view s d -> c.event_id r <> event_id -> r ∈ committed (final o))
  /\ idle s (final o).
Proof.
  intros Hpk Hlock Hst o.
  pose proof (claim_and_complete_run s event_id d Hpk Hlock) as Hrun. cbv zeta in Hrun.
  fold o in Hrun.
  assert (H : res o = Ok (Some tt)
              /\ committed (final o)
                 = update_status event_id (clock d)
                     (insert_do_nothing (new_row event_id (clock d)) (view s d))).
  { destruct (stored_status event_id (view s d)) as [[|] |]; [exact Hrun | | exact Hrun].
    contradiction Hst; reflexivity. }
  destruct H as [Hres Hc].
  assert (Hin : has_row event_id
                  (insert_do_nothing (new_row event_id (clock d)) (view s d)) = true)
    by apply (has_row_insert (new_row event_id (clock d))).
  split; [exact Hres |]. split; [exact Hc |]. rewrite Hc.
  split; [apply stored_status_update, Hin |].
  split; [rewrite count_rows_update; apply count_rows_present;
          [apply insert_do_nothing_NoDup, view_NoDup, Hpk | exact Hin] |].
  split.
  - intros r Hr Hne. unfold update_status. apply list_elem_of_fmap. exists r. split.
    + unfold completed_row. apply String.eqb_neq in Hne. rewrite Hne. reflexivity.
    + unfold insert_do_nothing. destruct (has_row _ (view s d)); [exact Hr |].
      apply elem_of_app. left. exact Hr.
  - subst o. apply async_with_idle.
Qed.

Lemma claim_and_complete_commits_witness :
  pk_ok (pg_empty 7) /\ lock_available 1 "e1" (pg_empty 7)
  /\ stored_status "e1" (view 1 (pg_empty 7)) <> Some COMPLETED
  /\ committed (final (run (pg_session 1) (claim_and_complete "e1") (pg_empty 7)))
     = [c.Row "e1" COMPLETED 7 (Some 7)].
Proof.
  assert (H1 : pk_ok (pg_empty 7)) by apply NoDup_nil_2.
  assert (H2 : lock_available 1 "e1" (pg_empty 7)) by (vm_compute; exact I).
  assert (H3 : stored_status "e1" (view 1 (pg_empty 7)) <> Some COMPLETED) by discriminate.
  split; [exact H1 |]. split; [exact H2 |]. split; [exact H3 |].
  destruct (claim_and_complete_commits 1 "e1" (pg_empty 7) H1 H2 H3) as (_ & H & _).
  rewrite H. reflexivity.
Defined.

(** ** Two whole consumers racing for one event *)

Section Stages.

Context {St A : Type} (h : session St).

Lemma resume_answer (p : coro A) st :
  resume h p st =
  match pending_call p with
  | Some c => (answer p (fst (h c st)), snd (h c st))
  | None => (to_await p, st)
  end.
Proof. unfold resume, pending_call, answer. destruct (to_await p); reflexivity. Qed.

Lemma run_calls_resume (p : coro A) : forall st,
  calls_of (events (run h p st)) =
  match pending_call p with
  | Some c => c :: calls_of (events (run h (fst (resume h p st)) (snd (resume h p st))))
  | None => []
  end.
Proof.
  induction p as [a | e | c k IH | r k IH]; intros st; try reflexivity.
  cbn [run events]. rewrite calls_of_log, resume_log. apply IH.
Qed.

Lemma final_result_run (p : coro A) r : forall st,
  final_result p = Some r -> res (run h p st) = r /\ final (run h p st) = st.
Proof.
  induction p as [a | e | c k IH | r' k IH]; intros st H; cbn in H.
  - injection H as <-. split; reflexivity.
  - injection H as <-. split; reflexivity.
  - discriminate.
  - cbn [run res final]. apply IH, H.
Qed.

Lemma final_result_resume (p : coro A) r st :
  final_result p = Some r ->
  snd (resume h p st) = st /\ final_result (fst (resume h p st)) = Some r.
Proof.
  intros H. rewrite resume_answer. unfold final_result, pending_call in *.
  destruct (to_await p) as [a | e | c k | r' k] eqn:E; try discriminate; cbn [fst snd];
    (split; [reflexivity |]); cbn; exact H.
Qed.

Lemma no_call_final (p : coro A) :
  pending_call p = None -> exists r, final_result p = Some r.
Proof.
  unfold pending_call, final_result.
  assert (Hlog : forall (r : log_record) (k : coro A), to_await p <> Log r k).
  { induction p as [a | e | c k IH | r' k IH]; intros r k0 H; try discriminate.
    apply (IH r k0), H. }
  destruct (to_await p) as [a | e | c k | r' k] eqn:E; intros H; try discriminate; eauto.
  exfalso. apply (Hlog r' k). reflexivity.
Qed.

End Stages.

Lemma consumer_pending_lock event_id :
  pending_call (claim_and_complete event_id)
  = Some (Execute (TryAdvisoryXactLock (_get_lock_key_for_event event_id))).
Proof. reflexivity. Qed.

Lemma refused_pending_rollback event_id : pending_call (refused event_id) = Some Rollback.
Proof. reflexivity. Qed.

Lemma refused_rolled_back event_id rows :
  final_result (answer (refused event_id) (Ok rows)) = Some (Err (lock_contention event_id)).
Proof. reflexivity. Qed.

Lemma idle_rollback_id s d : idle s d -> pg_rollback s d = d.
Proof.
  intros [Hp Hl]. unfold pg_rollback. destruct d as [t p l now]. cbn in *. f_equal.
  - apply delete_id, Hp.
  - unfold release. apply map_filter_id. intros key holder H. cbn. intros ->.
    apply (Hl key H).
Qed.

Lemma idle_others s s' d d' : s' <> s -> others_same s d d' -> idle s' d -> idle s' d'.
Proof.
  intros Hne Ho [Hp Hl]. destruct (Ho s' Hne) as [Hp' Hl']. split; [congruence |].
  intros key H. apply Hl' in H. apply (Hl key H).
Qed.

Lemma view_idle s d : idle s d -> view s d = committed d.
Proof. intros [Hp _]. unfold view, pending_of. rewrite Hp. reflexivity. Qed.

Lemma async_with_calls {St A} (h : session St) (body : coro A) st :
  calls_of (events (run h (async_with body) st))
  = calls_of (events (run h body st)) ++
    [match res (run h body st) with Ok _ => Commit | Err _ => Rollback end].
Proof.
  unfold async_with, __aenter__. cbn [log bind handle run res final events].
  rewrite run_handle.
  destruct (res (run h body st)) as [a | e]; cbn [after events].
  - rewrite run_bind, aexit_commit.
    destruct (h Commit _) as [[rows | e'] st']; cbn [fst snd res final events after run];
      [| destruct (is_Exception (exc_type e'))]; autorewrite with evs; reflexivity.
  - rewrite run_bind, aexit_rollback.
    destruct (h Rollback _) as [[rows | e'] st']; cbn [fst snd res final events after run];
      [| destruct (is_Exception (exc_type e'))]; autorewrite with evs; reflexivity.
Qed.

Lemma only_executes_calls {St A} (h : session St) (p : coro A) : forall st,
  only_executes p -> exists qs, calls_of (events (run h p st)) = map Execute qs.
Proof.
  induction p as [a | e | c k IH | r k IH]; intros st Hp; cbn [run events].
  - exists []. reflexivity.
  - exists []. reflexivity.
  - destruct Hp as [[q ->] Hk].
    destruct (IH (fst (h (Execute q) st)) (snd (h (Execute q) st)) (Hk _)) as [qs Hqs].
    exists (q :: qs). rewrite calls_of_call, Hqs. reflexivity.
  - rewrite calls_of_log. apply IH, Hp.
Qed.

Lemma only_executes_consumer_body event_id :
  only_executes (try_claim_event event_id ;; mark_as_completed event_id).
Proof.
  apply only_executes_bind; [apply only_executes_claim | intros _; apply only_executes_mark].
Qed.

Section ConsumerRace.

Variables (w l : nat) (event_id : string) (rw : result (option unit)).
Hypothesis sessions_differ : w <> l.

Let key := _get_lock_key_for_event event_id.
Let refusal : result (option unit) := Err (lock_contention event_id).
Let completed : result (option unit) := Err (already_completed event_id).

(** The store once the winner has ended. *)
Let good (d : pg) : Prop :=
  pk_ok d /\ stored_status event_id (committed d) = Some COMPLETED /\ locks d !! key = None.

(** The winner, left alone, executes statements, ends its transaction,
    gives [rw] and leaves a good store. *)
Let winner_on (pw : coro (option unit)) (d : pg) : Prop :=
  (exists qs cleanup,
      calls_of (events (run (pg_session w) pw d)) = map Execute qs ++ [cleanup]
      /\ (cleanup = Commit \/ cleanup = Rollback))
  /\ res (run (pg_session w) pw d) = rw
  /\ good (final (run (pg_session w) pw d)).

Let holds (pw pl : coro (option unit)) (d : pg) : Prop :=
  locks d !! key = Some w /\ idle l d /\ consumer_behind event_id pl /\ winner_on pw d.

Let over (pw pl : coro (option unit)) (d : pg) : Prop :=
  final_result pw = Some rw /\ pk_ok d
  /\ stored_status event_id (committed d) = Some COMPLETED
  /\ (res (run (pg_session l) pl d) = refusal \/ res (run (pg_session l) pl d) = completed).

Let inv (pw pl : coro (option unit)) (d : pg) : Prop := holds pw pl d \/ over pw pl d.

Lemma loser_at_good pl d :
  good d -> consumer_behind event_id pl ->
  res (run (pg_session l) pl d) = refusal \/ res (run (pg_session l) pl d) = completed.
Proof.
  intros (Hpk & Hst & Hfree) [-> | [-> | Hfin]].
  - right.
    assert (Hlock : lock_available l event_id d).
    { unfold lock_available. fold key. rewrite Hfree. exact I. }
    pose proof (claim_and_complete_run l event_id d Hpk Hlock) as Hrun. cbv zeta in Hrun.
    rewrite (completed_stays event_id (committed d) (view l d)
               (view_NoDup l d Hpk) (table_le_view l d) Hst) in Hrun.
    apply Hrun.
  - left. destruct (run_resume (pg_session l) (refused event_id) d) as [<- _].
    rewrite resume_answer, refused_pending_rollback. cbn [fst snd pg_session].
    apply (final_result_run (pg_session l) _ _ d (refused_rolled_back event_id [])).
  - left. apply (final_result_run (pg_session l) _ _ d Hfin).
Qed.

Lemma loser_while_held pl d :
  locks d !! key = Some w -> idle l d -> consumer_behind event_id pl ->
  snd (resume (pg_session l) pl d) = d
  /\ consumer_behind event_id (fst (resume (pg_session l) pl d))
  /\ res (run (pg_session l) pl d) = refusal
  /\ final (run (pg_session l) pl d) = d.
Proof.
  intros Hl Hidle Hpl.
  assert (Hrefused : resume (pg_session l) (refused event_id) d
                     = (answer (refused event_id) (Ok []), d)).
  { rewrite resume_answer, refused_pending_rollback. cbn [fst snd pg_session].
    rewrite (idle_rollback_id l d Hidle). reflexivity. }
  assert (Hrun : res (run (pg_session l) (refused event_id) d) = refusal
                 /\ final (run (pg_session l) (refused event_id) d) = d).
  { destruct (run_resume (pg_session l) (refused event_id) d) as [<- <-].
    rewrite Hrefused. cbn [fst snd].
    apply (final_result_run (pg_session l) _ _ d (refused_rolled_back event_id [])). }
  destruct Hpl as [-> | [-> | Hfin]].
  - assert (Hfirst : resume (pg_session l) (claim_and_complete event_id) d
                     = (refused event_id, d)).
    { rewrite resume_answer, consumer_pending_lock. cbn [pg_session].
      rewrite (try_lock_contended l w event_id d Hl sessions_differ). reflexivity. }
    destruct (run_resume (pg_session l) (claim_and_complete event_id) d) as [<- <-].
    rewrite Hfirst. cbn [fst snd].
    split; [reflexivity |]. split; [right; left; reflexivity | exact Hrun].
  - rewrite Hrefused. cbn [fst snd].
    split; [reflexivity |]. split; [| exact Hrun].
    right. right. apply refused_rolled_back.
  - destruct (final_result_resume (pg_session l) pl _ d Hfin) as [-> Hfin'].
    split; [reflexivity |]. split; [right; right; exact Hfin' |].
    apply (final_result_run (pg_session l) _ _ d Hfin).
Qed.

Lemma winner_step pw pl d :
  inv pw pl d ->
  inv (fst (resume (pg_session w) pw d)) pl (snd (resume (pg_session w) pw d)).
Proof.
  intros [(Hl & Hidle & Hpl & (qs & cleanup & Hcalls & Hcleanup) & Hres & Hgood)
         | (Hfin & Hpk & Hst & Hloser)].
  - destruct (run_resume (pg_session w) pw d) as [Hres' Hfinal'].
    rewrite run_calls_resume in Hcalls.
    destruct (pending_call pw) as [c |] eqn:Ec; [| destruct qs; discriminate].
    destruct qs as [| q qs]; cbn [map app] in Hcalls; injection Hcalls as -> Hrest.
    + right.
      rewrite run_calls_resume in Hrest.
      destruct (pending_call (fst (resume (pg_session w) pw d))) eqn:Ec'; [discriminate |].
      destruct (no_call_final _ Ec') as [r Hr].
      destruct (final_result_run (pg_session w) _ _ (snd (resume (pg_session w) pw d)) Hr)
        as [Hr1 Hr2].
      rewrite Hres', Hres in Hr1. subst r. rewrite Hfinal' in Hr2. rewrite <- Hr2.
      split; [exact Hr |]. destruct Hgood as (Hpk & Hst & Hfree).
      split; [exact Hpk |]. split; [exact Hst |].
      apply loser_at_good; [split; [exact Hpk | split; [exact Hst | exact Hfree]] | exact Hpl].
    + left. rewrite resume_answer, Ec in *. cbn [fst snd pg_session] in *.
      split; [apply pg_execute_keeps_lock, Hl |].
      split; [apply (idle_others w l d); [auto | apply (pg_session_others w (Execute q)) | exact Hidle] |].
      split; [exact Hpl |].
      split; [exists qs, cleanup; auto |].
      rewrite Hres', Hfinal'. split; [exact Hres | exact Hgood].
  - right. destruct (final_result_resume (pg_session w) pw _ d Hfin) as [-> Hfin'].
    split; [exact Hfin' |]. split; [exact Hpk |]. split; [exact Hst | exact Hloser].
Qed.

Lemma loser_step pw pl d :
  inv pw pl d ->
  inv pw (fst (resume (pg_session l) pl d)) (snd (resume (pg_session l) pl d)).
Proof.
  intros [(Hl & Hidle & Hpl & Hw) | (Hfin & Hpk & Hst & Hloser)].
  - left. destruct (loser_while_held pl d Hl Hidle Hpl) as (-> & Hpl' & _).
    split; [exact Hl |]. split; [exact Hidle |]. split; [exact Hpl' | exact Hw].
  - right. unfold over. destruct (run_resume (pg_session l) pl d) as [-> _].
    split; [exact Hfin |].
    assert (Hstep : pk_ok (snd (resume (pg_session l) pl d))
                    /\ table_le (committed d) (committed (snd (resume (pg_session l) pl d)))).
    { rewrite resume_answer. destruct (pending_call pl); cbn [snd];
        [apply pg_session_invariant, Hpk | split; [exact Hpk | apply table_le_refl]]. }
    destruct Hstep as [Hpk' Hle].
    split; [exact Hpk' |]. split; [| exact Hloser].
    apply (completed_stays event_id (committed d)); assumption.
Qed.

(** What the race comes to: the winner's result, the loser refused or
    told the event is completed, and the event committed [COMPLETED]. *)
Let outcome_ok (rwin rlose : result (option unit)) (d : pg) : Prop :=
  rwin = rw /\ (rlose = refusal \/ rlose = completed)
  /\ stored_status event_id (committed d) = Some COMPLETED /\ pk_ok d.

Lemma end_winner_first pw pl d :
  inv pw pl d ->
  let ow := run (pg_session w) pw d in
  let ol := run (pg_session l) pl (final ow) in
  outcome_ok (res ow) (res ol) (final ol).
Proof.
  intros Hinv ow ol.
  assert (H : res ow = rw /\ pk_ok (final ow)
              /\ stored_status event_id (committed (final ow)) = Some COMPLETED
              /\ (res ol = refusal \/ res ol = completed)).
  { destruct Hinv as [(Hl & Hidle & Hpl & _ & Hres & Hgood) | (Hfin & Hpk & Hst & Hloser)].
    - split; [exact Hres |]. destruct Hgood as (Hpk & Hst & Hfree).
      split; [exact Hpk |]. split; [exact Hst |].
      apply loser_at_good; [split; [exact Hpk | split; [exact Hst | exact Hfree]] | exact Hpl].
    - destruct (final_result_run (pg_session w) pw _ d Hfin) as [Hr Hf].
      subst ol ow. rewrite Hr, Hf. auto. }
  destruct H as (Hres & Hpk & Hst & Hloser).
  destruct (run_invariant l pl (final ow) Hpk) as [Hpk' Hle]. fold ol in Hpk', Hle.
  split; [exact Hres |]. split; [exact Hloser |]. split; [| exact Hpk'].
  apply (completed_stays event_id (committed (final ow))); assumption.
Qed.

Lemma end_loser_first pw pl d :
  inv pw pl d ->
  let ol := run (pg_session l) pl d in
  let ow := run (pg_session w) pw (final ol) in
  outcome_ok (res ow) (res ol) (final ow).
Proof.
  intros [(Hl & Hidle & Hpl & _ & Hres & Hgood) | (Hfin & Hpk & Hst & Hloser)] ol ow.
  - destruct (loser_while_held pl d Hl Hidle Hpl) as (_ & _ & Hr & Hf).
    subst ow ol. rewrite Hr, Hf. destruct Hgood as (Hpk & Hst & _).
    split; [exact Hres |]. split; [left; reflexivity |]. split; assumption.
  - destruct (run_invariant l pl d Hpk) as [Hpk' Hle]. fold ol in Hpk', Hle.
    destruct (final_result_run (pg_session w) pw _ (final ol) Hfin) as [Hr Hf].
    subst ow. rewrite Hr, Hf.
    split; [reflexivity |]. split; [exact Hloser |]. split; [| exact Hpk'].
    apply (completed_stays event_id (committed d)); assumption.
Qed.

(** The first lock call of a consumer in a new transaction, on a free
    lock, makes it the winner. *)
Lemma first_call_wins d :
  rw = consumer_result event_id d ->
  pk_ok d -> locks d !! key = None -> idle w d -> idle l d ->
  inv (fst (resume (pg_session w) (claim_and_complete event_id) d))
      (claim_and_complete event_id)
      (snd (resume (pg_session w) (claim_and_complete event_id) d)).
Proof.
  intros Hrw Hpk Hfree Hw Hidle. left.
  assert (Hlock : lock_available w event_id d).
  { unfold lock_available. fold key. rewrite Hfree. exact I. }
  set (body := try_claim_event event_id ;; mark_as_completed event_id).
  set (o := run (pg_session w) (claim_and_complete event_id) d).
  destruct (run_resume (pg_session w) (claim_and_complete event_id) d) as [Hres Hfinal].
  fold o in Hres, Hfinal.
  assert (Hcalls : calls_of (events o)
                   = Execute (TryAdvisoryXactLock key)
                     :: calls_of (events (run (pg_session w)
                                              (fst (resume (pg_session w)
                                                      (claim_and_complete event_id) d))
                                              (snd (resume (pg_session w)
                                                      (claim_and_complete event_id) d))))).
  { subst o. rewrite run_calls_resume, consumer_pending_lock. reflexivity. }
  assert (Ho : res o = rw /\ good (final o)).
  { pose proof (claim_and_complete_run w event_id d Hpk Hlock) as Hrun. cbv zeta in Hrun.
    fold o in Hrun. rewrite (view_idle w d Hw) in Hrun.
    destruct (run_invariant w (claim_and_complete event_id) d Hpk) as [Hpk' _].
    fold o in Hpk'.
    assert (Hrel : locks (final o) !! key = None).
    { subst o. unfold claim_and_complete. fold body.
      destruct (async_with_pg w body d) as [_ ->].
      pose proof (rollback_undoes w body d (only_executes_consumer_body event_id)) as Hu.
      assert (Hlocks : release w (locks (final (run (pg_session w) body d)))
                       = release w (locks d)).
      { apply (f_equal locks) in Hu. exact Hu. }
      destruct (res (run (pg_session w) body d)); cbn [pg_commit pg_rollback locks];
        rewrite Hlocks; apply release_frees; fold key; rewrite Hfree; exact I. }
    rewrite Hrw. unfold consumer_result, good.
    destruct (stored_status event_id (committed d)) as [[|] |] eqn:E.
    - destruct Hrun as [Hr Hc]. split; [exact Hr |]. split; [exact Hpk' |].
      split; [| exact Hrel]. rewrite Hc.
      apply stored_status_update, (has_row_insert (new_row event_id (clock d))).
    - destruct Hrun as [Hr Hf]. split; [exact Hr |]. split; [exact Hpk' |].
      split; [| exact Hrel]. rewrite Hf. exact E.
    - destruct Hrun as [Hr Hc]. split; [exact Hr |]. split; [exact Hpk' |].
      split; [| exact Hrel]. rewrite Hc.
      apply stored_status_update, (has_row_insert (new_row event_id (clock d))). }
  assert (Hsnd : snd (resume (pg_session w) (claim_and_complete event_id) d)
                 = lock_taken w event_id d).
  { rewrite resume_answer, consumer_pending_lock. cbn [snd pg_session].
    rewrite (try_lock_available w event_id d Hlock). reflexivity. }
  split; [rewrite Hsnd; apply lookup_insert_eq |].
  split.
  { rewrite Hsnd. apply (idle_others w l d); [auto | | exact Hidle].
    intros s' Hne. split; [reflexivity |]. intros k. unfold lock_taken. cbn [locks].
    rewrite lookup_insert_Some. split.
    - intros [[_ ->] | [_ H]]; [contradiction | exact H].
    - intros H. right. split; [| exact H]. intros <-. fold key in H. congruence. }
  split; [left; reflexivity |].
  unfold winner_on. rewrite Hres, Hfinal. split; [| exact Ho].
  subst o. unfold claim_and_complete in Hcalls at 1. rewrite async_with_calls in Hcalls.
  destruct (only_executes_calls (pg_session w) body d (only_executes_consumer_body event_id))
    as [qs Hqs].
  fold body in Hcalls. rewrite Hqs in Hcalls.
  set (cleanup := match res (run (pg_session w) body d) with
                  | Ok _ => Commit | Err _ => Rollback end) in Hcalls.
  assert (Hcleanup : cleanup = Commit \/ cleanup = Rollback).
  { subst cleanup. destruct (res (run (pg_session w) body d)); auto. }
  destruct qs as [| q qs]; cbn [map app] in Hcalls.
  - injection Hcalls as Hc _. destruct Hcleanup as [E | E]; rewrite E in Hc; discriminate.
  - injection Hcalls as _ Hrest. exists qs, cleanup. split; [symmetry; exact Hrest | exact Hcleanup].
Qed.

Lemma race_winner_first sched : forall pw pl d,
  inv pw pl d ->
  let out := interleave (pg_session w) (pg_session l) sched pw pl d in
  outcome_ok (fst (fst out)) (snd (fst out)) (snd out).
Proof.
  induction sched as [| [|] sched IH]; intros pw pl d Hinv; cbn [interleave].
  - apply end_winner_first, Hinv.
  - apply IH, winner_step, Hinv.
  - apply IH, loser_step, Hinv.
Qed.

Lemma race_winner_second sched : forall pw pl d,
  inv pw pl d ->
  let out := interleave (pg_session l) (pg_session w) sched pl pw d in
  outcome_ok (snd (fst out)) (fst (fst out)) (snd out).
Proof.
  induction sched as [| [|] sched IH]; intros pw pl d Hinv; cbn [interleave].
  - apply end_loser_first, Hinv.
  - apply IH, loser_step, Hinv.
  - apply IH, winner_step, Hinv.
Qed.

Section FromStart.

Variable d : pg.
Hypothesis rw_is : rw = consumer_result event_id d.
Hypothesis pk : pk_ok d.
Hypothesis free : locks d !! key = None.
Hypothesis idle_w : idle w d.
Hypothesis idle_l : idle l d.

Lemma race_first_turn sched :
  let out := interleave (pg_session w) (pg_session l) (TurnA :: sched)
                        (claim_and_complete event_id) (claim_and_complete event_id) d in
  outcome_ok (fst (fst out)) (snd (fst out)) (snd out).
Proof.
  cbn [interleave]. apply race_winner_first, first_call_wins; assumption.
Qed.

Lemma race_no_turn :
  let out := interleave (pg_session w) (pg_session l) []
                        (claim_and_complete event_id) (claim_and_complete event_id) d in
  outcome_ok (fst (fst out)) (snd (fst out)) (snd out).
Proof.
  pose proof (end_winner_first _ _ _ (first_call_wins d rw_is pk free idle_w idle_l)) as H.
  cbv zeta in H.
  destruct (run_resume (pg_session w) (claim_and_complete event_id) d) as [Hres Hfinal].
  rewrite Hres, Hfinal in H. exact H.
Qed.

Lemma race_second_turn sched :
  let out := interleave (pg_session l) (pg_session w) (TurnB :: sched)
                        (claim_and_complete event_id) (claim_and_complete event_id) d in
  outcome_ok (snd (fst out)) (fst (fst out)) (snd out).
Proof.
  cbn [interleave]. apply race_winner_second, first_call_wins; assumption.
Qed.

End FromStart.

End ConsumerRace.

(** X2.  Two consumers, each in a new transaction, claim and complete
    one event whose lock nobody holds, their calls interleaved in any
    way.  The one whose lock call comes first processes the event, unless
    it was committed [COMPLETED] already, and then it gets
    [AlreadyCompletedError].  The other never processes it: it gets
    [LockContentionError] when its lock call comes while the first holds
    the lock, [AlreadyCompletedError] when it comes after.  So at most
    one of them returns normally, and in the end the event is committed
    [COMPLETED], under distinct keys. *)
Theorem consumers_race_exactly_once (sa sb : nat) (event_id : string) (d : pg)
    (sched : list turn) :
  sa <> sb -> pk_ok d ->
  locks d !! _get_lock_key_for_event event_id = None ->
  idle sa d -> idle sb d ->
  let out := interleave (pg_session sa) (pg_session sb) sched
                        (claim_and_complete event_id) (claim_and_complete event_id) d in
  let ra := fst (fst out) in
  let rb := snd (fst out) in
  match first_turn sched with
  | TurnA =>
      ra = consumer_result event_id d
      /\ (rb = Err (lock_contention event_id) \/ rb = Err (already_completed event_id))
  | TurnB =>
      rb = consumer_result event_id d
      /\ (ra = Err (lock_contention event_id) \/ ra = Err (already_completed event_id))
  end
  /\ (ra, rb) <> (Ok (Some tt), Ok (Some tt))
  /\ stored_status event_id (committed (snd out)) = Some COMPLETED
  /\ pk_ok (snd out).
Proof.
  intros Hne Hpk Hfree Ha Hb out ra rb.
  assert (H : match first_turn sched with
              | TurnA =>
                  ra = consumer_result event_id d
                  /\ (rb = Err (lock_contention event_id)
                      \/ rb = Err (already_completed event_id))
              | TurnB =>
                  rb = consumer_result event_id d
                  /\ (ra = Err (lock_contention event_id)
                      \/ ra = Err (already_completed event_id))
              end
              /\ stored_status event_id (committed (snd out)) = Some COMPLETED
              /\ pk_ok (snd out)).
  { subst ra rb out. destruct sched as [| [|] sched]; cbn [first_turn].
    - pose proof (race_no_turn sa sb event_id _ Hne d eq_refl Hpk Hfree Ha Hb) as H.
      cbv zeta in H. destruct H as (Hw & Hl & Hst & Hpk').
      split; [split; [exact Hw | exact Hl] | split; [exact Hst | exact Hpk']].
    - pose proof (race_first_turn sa sb event_id _ Hne d eq_refl Hpk Hfree Ha Hb sched) as H.
      cbv zeta in H. destruct H as (Hw & Hl & Hst & Hpk').
      split; [split; [exact Hw | exact Hl] | split; [exact Hst | exact Hpk']].
    - pose proof (race_second_turn sb sa event_id _ (not_eq_sym Hne) d eq_refl Hpk Hfree
                    Hb Ha sched) as H.
      cbv zeta in H. destruct H as (Hw & Hl & Hst & Hpk').
      split; [split; [exact Hw | exact Hl] | split; [exact Hst | exact Hpk']]. }
  destruct H as (Hturn & Hst & Hpk').
  split; [exact Hturn |]. split; [| split; assumption].
  intros E. injection E as Era Erb.
  destruct (first_turn sched); destruct Hturn as [_ [Hr | Hr]]; congruence.
Qed.

Lemma consumers_race_exactly_once_witness :
  let d := pg_empty 0 in
  1%nat <> 2%nat /\ pk_ok d /\ locks d !! _get_lock_key_for_event "e1" = None
  /\ idle 1 d /\ idle 2 d
  /\ stored_status "e1"
       (committed (snd (interleave (pg_session 1) (pg_session 2)
                                   [TurnB; TurnA; TurnB; TurnA; TurnB]
                                   (claim_and_complete "e1") (claim_and_complete "e1") d)))
     = Some COMPLETED.
Proof.
  intros d.
  assert (H0 : 1%nat <> 2%nat) by discriminate.
  assert (H1 : pk_ok d) by apply NoDup_nil_2.
  assert (H2 : locks d !! _get_lock_key_for_event "e1" = None) by reflexivity.
  assert (H3 : forall s, idle s d) by (intros s; split; [reflexivity | intros key; discriminate]).
  split; [exact H0 |]. split; [exact H1 |]. split; [exact H2 |].
  split; [apply H3 |]. split; [apply H3 |].
  destruct (consumers_race_exactly_once 1 2 "e1" d [TurnB; TurnA; TurnB; TurnA; TurnB]
              H0 H1 H2 (H3 1%nat) (H3 2%nat)) as (_ & _ & H & _).
  exact H.
Defined.

(** ** What a claim can come to *)

Lemma lock_contention_not_completed event_id :
  lock_contention event_id <> already_completed event_id.
Proof. discriminate. Qed.



(** X4.  Whatever the session answers, a claim awaits the lock call, then
    at most the read of the status, then at most the insert, and nothing
    else: it never updates, commits or rolls back.  [mark_as_completed]
    awaits its one update.  Neither catches anything: an exception the
    session raises at the lock call or at the update is what the caller
    gets, and after a failed update nothing is logged. *)
Theorem claim_manager_calls {St : Type} (h : session St) (event_id : string) (st : St) :
  let key := _get_lock_key_for_event event_id in
  let o := run h (try_claim_event event_id) st in
  let m := run h (mark_as_completed event_id) st in
  (exists n, (1 <= n)%nat
             /\ calls_of (events o)
                = firstn n [Execute (TryAdvisoryXactLock key);
                            Execute (SelectStatus event_id);
                            Execute (InsertProcessing event_id)])
  /\ calls_of (events m) = [Execute (UpdateCompleted event_id)]
  /\ final m = snd (h (Execute (UpdateCompleted event_id)) st)
  /\ res m = match fst (h (Execute (UpdateCompleted event_id)) st) with
             | Ok _ => Ok tt
             | Err x => Err x
             end
  /\ logs_of (events m) = match fst (h (Execute (UpdateCompleted event_id)) st) with
                          | Ok _ => logs_of [marked_completed event_id]
                          | Err _ => []
                          end
  /\ match fst (h (Execute (TryAdvisoryXactLock key)) st) with
     | Ok _ => True
     | Err x => res o = Err x /\ final o = snd (h (Execute (TryAdvisoryXactLock key)) st)
     end.
Proof.
  intros key o m. split; [| split; [| split; [| split; [| split]]]].
  - subst o key. unfold try_claim_event, _acquire_advisory_lock, _get_event_processing_state.
    cbn.
    destruct (h (Execute (TryAdvisoryXactLock _)) st) as [[rows | x] st1];
      cbn; [| exists 1%nat; split; [lia | reflexivity]].
    destruct rows as [| v [| v' rows]]; cbn;
      try (exists 1%nat; split; [lia | reflexivity]).
    destruct (truthy v); cbn; [| exists 1%nat; split; [lia | reflexivity]].
    destruct (h (Execute (SelectStatus event_id)) st1) as [[rows | x] st2];
      cbn; [| exists 2%nat; split; [lia | reflexivity]].
    destruct rows as [| v1 [| v2 rows]]; cbn;
      try (exists 2%nat; split; [lia | reflexivity]).
    + exists 3%nat. split; [lia |].
      rewrite decide_False by discriminate. cbn.
      destruct (h (Execute (InsertProcessing event_id)) st2) as [[rows | x] st3];
        reflexivity.
    + destruct (decide (Some v1 = Some (VStatus COMPLETED)));
        cbn; exists 2%nat; split; try lia; reflexivity.
  - subst m. unfold mark_as_completed. cbn.
    destruct (h (Execute (UpdateCompleted event_id)) st) as [[rows | x] st1]; reflexivity.
  - subst m. unfold mark_as_completed. cbn.
    destruct (h (Execute (UpdateCompleted event_id)) st) as [[rows | x] st1]; reflexivity.
  - subst m. unfold mark_as_completed. cbn.
    destruct (h (Execute (UpdateCompleted event_id)) st) as [[rows | x] st1]; reflexivity.
  - subst m. unfold mark_as_completed. cbn.
    destruct (h (Execute (UpdateCompleted event_id)) st) as [[rows | x] st1]; reflexivity.
  - subst o key. unfold try_claim_event, _acquire_advisory_lock. cbn.
    destruct (h (Execute (TryAdvisoryXactLock _)) st) as [[rows | x] st1];
      [exact I | split; reflexivity].
Qed.

(** ** What leaving the unit of work logs *)

(** X6.  On any session [__aexit__] makes one call, [rollback] when it is
    given an exception and [commit] otherwise.  It returns [None] when
    that call returns, so it never makes [async with] drop an exception,
    and raises what the call raised otherwise.  It logs a [WARNING]
    exactly when it is given an exception, an [ERROR] exactly when the
    call raised an exception that derives from [Exception] (one that
    derives from [BaseException] only goes through unlogged), and on
    every path the last record is the [DEBUG] one of the [finally]
    clause. *)
Theorem aexit_logs {St : Type} (h : session St) (raised : option exc) (st : St) :
  let o := run h (__aexit__ raised) st in
  let cleanup := match raised with Some _ => Rollback | None => Commit end in
  calls_of (events o) = [cleanup]
  /\ res o = match fst (h cleanup st) with Ok _ => Ok None | Err x => Err x end
  /\ last (logs_of (events o)) = Some (LogRecord DEBUG "UnitOfWork context exited")
  /\ has_level WARNING (events o) = match raised with Some _ => true | None => false end
  /\ has_level ERROR (events o)
     = match fst (h cleanup st) with
       | Ok _ => false
       | Err x => is_Exception (exc_type x)
       end.
Proof.
  intros o cleanup. subst o cleanup. destruct raised as [e |].
  - rewrite aexit_rollback. cbn [res events].
    destruct (h Rollback st) as [[rows | x] st']; cbn [fst];
      [| destruct (is_Exception (exc_type x))]; repeat split; reflexivity.
  - rewrite aexit_commit. cbn [res events].
    destruct (h Commit st) as [[rows | x] st']; cbn [fst];
      [| destruct (is_Exception (exc_type x))]; repeat split; reflexivity.
Qed.

(** ** When two events share a lock key *)

Lemma be_bytes_succ n x :
  SHA256.be_bytes (S n) x = SHA256.be_bytes n (x / 256) ++ [x mod 256].
Proof.
  unfold SHA256.be_bytes. rewrite <- cons_seq, <- seq_shift. cbn [rev].
  rewrite map_app. cbn [map]. rewrite Z.mul_0_r, Z.pow_0_r, Z.div_1_r. f_equal.
  rewrite <- map_rev, map_map. apply map_ext. intros i. f_equal.
  rewrite Nat2Z.inj_succ.
  replace (8 * Z.succ (Z.of_nat i)) with (8 + 8 * Z.of_nat i) by lia.
  rewrite Z.pow_add_r by lia. change (2 ^ 8) with 256.
  rewrite Z.div_div by lia. reflexivity.
Qed.

Lemma be_word_snoc bs b : SHA256.be_word (bs ++ [b]) = SHA256.be_word bs * 256 + b.
Proof. unfold SHA256.be_word. rewrite fold_left_app. reflexivity. Qed.

(** The bytes of a word, most significant first, are found again from
    its value. *)
Lemma be_bytes_be_word bs :
  Forall (fun b => 0 <= b < 256) bs ->
  SHA256.be_bytes (length bs) (SHA256.be_word bs) = bs.
Proof.
  induction bs as [| b bs IH] using rev_ind; intros H; [reflexivity |].
  apply Forall_app in H as [Hbs Hb]. apply Forall_inv in Hb.
  rewrite length_app, Nat.add_1_r, be_bytes_succ, be_word_snoc.
  rewrite Z.div_add_l, Z.div_small, Z.add_0_r by lia.
  rewrite Z.add_comm, Z.mod_add, Z.mod_small by lia.
  rewrite IH by exact Hbs. reflexivity.
Qed.

Lemma lock_key_bytes event_id :
  SHA256.be_bytes 8 (_get_lock_key_for_event event_id mod 2 ^ 64)
  = firstn 8 (SHA256.sha256 (encode event_id)).
Proof.
  rewrite lock_key_unfold.
  pose proof (sha256_length (encode event_id)) as Hlen.
  pose proof (sha256_range (encode event_id)) as Hrange.
  set (digest := SHA256.sha256 (encode event_id)) in *. clearbody digest.
  assert (Hlen8 : length (firstn 8 digest) = 8%nat).
  { rewrite length_firstn, Hlen. reflexivity. }
  assert (Hne : firstn 8 digest <> []).
  { intros E. rewrite E in Hlen8. discriminate. }
  apply (Forall_take _ 8%nat) in Hrange.
  destruct (int_from_bytes_signed_range _ Hne Hrange) as [_ Hm].
  rewrite Hlen8 in Hm. change (8 * Z.of_nat 8) with 64 in Hm. rewrite Hm.
  rewrite <- Hlen8 at 1. apply be_bytes_be_word, Hrange.
Qed.

(** X7.  The lock key keeps exactly the first eight bytes of the digest:
    they are found again from the key, and two event identifiers have
    the same key if and only if their digests agree on these eight
    bytes.  Identifiers whose digests differ only later share a lock. *)
Theorem lock_key_collisions (e1 e2 : string) :
  SHA256.be_bytes 8 (_get_lock_key_for_event e1 mod 2 ^ 64)
  = firstn 8 (SHA256.sha256 (encode e1))
  /\ (_get_lock_key_for_event e1 = _get_lock_key_for_event e2
      <-> firstn 8 (SHA256.sha256 (encode e1)) = firstn 8 (SHA256.sha256 (encode e2))).
Proof.
  split; [apply lock_key_bytes |]. split.
  - intros E. rewrite <- !lock_key_bytes, E. reflexivity.
  - intros E. rewrite !lock_key_unfold, E. reflexivity.
Qed.

(** What a claim gives depends on the store only through the holder of
    its lock and through what the session sees. *)
Lemma try_claim_event_res_eq s event_id d d' :
  pk_ok d -> pk_ok d' ->
  locks d' !! _get_lock_key_for_event event_id = locks d !! _get_lock_key_for_event event_id ->
  view s d' = view s d ->
  res (run (pg_session s) (try_claim_event event_id) d')
  = res (run (pg_session s) (try_claim_event event_id) d).
Proof.
  intros Hpk Hpk' Hl Hv.
  destruct (locks d !! _get_lock_key_for_event event_id) as [holder |] eqn:El.
  - destruct (decide (holder = s)) as [-> | Hne].
    + rewrite (try_claim_event_run s event_id d Hpk)
        by (unfold lock_available; rewrite El; reflexivity).
      rewrite (try_claim_event_run s event_id d' Hpk')
        by (unfold lock_available; rewrite Hl; reflexivity).
      rewrite Hv. destruct (stored_status event_id (view s d)) as [[|] |]; reflexivity.
    + rewrite (try_claim_event_contended s holder event_id d El Hne).
      rewrite (try_claim_event_contended s holder event_id d' Hl Hne). reflexivity.
  - rewrite (try_claim_event_run s event_id d Hpk)
      by (unfold lock_available; rewrite El; exact I).
    rewrite (try_claim_event_run s event_id d' Hpk')
      by (unfold lock_available; rewrite Hl; exact I).
    rewrite Hv. destruct (stored_status event_id (view s d)) as [[|] |]; reflexivity.
Qed.

(** The store a claim that succeeded leaves. *)
Lemma try_claim_event_ok_final s event_id d :
  pk_ok d ->
  res (run (pg_session s) (try_claim_event event_id) d) = Ok tt ->
  let d1 := final (run (pg_session s) (try_claim_event event_id) d) in
  pk_ok d1
  /\ locks d1 = <[_get_lock_key_for_event event_id := s]> (locks d)
  /\ forall s', s' <> s -> view s' d1 = view s' d.
Proof.
  intros Hpk Hok d1. destruct (try_claim_event_ok s event_id d Hpk Hok) as [Hlock _].
  split; [apply run_invariant, Hpk |].
  subst d1. rewrite (try_claim_event_run s event_id d Hpk Hlock).
  destruct (stored_status event_id (view s d)) as [[|] |]; cbn [final];
    (split; [reflexivity |]); intros s' Hne;
    rewrite ?view_add_write_ne by auto; reflexivity.
Qed.

(** X8.  After a session has claimed one event, a claim by another
    session on any event with another lock key gives what it would have
    given before: claims on such events do not get in each other's way.
    On any event with the same lock key, the same event or one whose
    digest collides with it, the other session gets
    [LockContentionError]. *)
Theorem claims_on_other_events (s s' : nat) (e1 e2 : string) (d : pg) :
  s <> s' -> pk_ok d ->
  res (run (pg_session s) (try_claim_event e1) d) = Ok tt ->
  let d1 := final (run (pg_session s) (try_claim_event e1) d) in
  (_get_lock_key_for_event e2 <> _get_lock_key_for_event e1 ->
   res (run (pg_session s') (try_claim_event e2) d1)
   = res (run (pg_session s') (try_claim_event e2) d))
  /\ (_get_lock_key_for_event e2 = _get_lock_key_for_event e1 ->
      res (run (pg_session s') (try_claim_event e2) d1) = Err (lock_contention e2)
      /\ final (run (pg_session s') (try_claim_event e2) d1) = d1).
Proof.
  intros Hne Hpk Hok d1.
  destruct (try_claim_event_ok_final s e1 d Hpk Hok) as (Hpk1 & Hl1 & Hv1). fold d1 in Hpk1, Hl1, Hv1.
  split.
  - intros Hkey. apply try_claim_event_res_eq; [exact Hpk | exact Hpk1 | | apply Hv1; auto].
    rewrite Hl1. apply lookup_insert_ne. auto.
  - intros Hkey.
    assert (El : locks d1 !! _get_lock_key_for_event e2 = Some s).
    { rewrite Hl1, Hkey. apply lookup_insert_eq. }
    rewrite (try_claim_event_contended s' s e2 d1 El Hne). split; reflexivity.
Qed.

Lemma claims_on_other_events_witness :
  1%nat <> 2%nat /\ pk_ok (pg_empty 0)
  /\ res (run (pg_session 1) (try_claim_event "e1") (pg_empty 0)) = Ok tt
  /\ (_get_lock_key_for_event "e2" <> _get_lock_key_for_event "e1" ->
      res (run (pg_session 2) (try_claim_event "e2")
               (final (run (pg_session 1) (try_claim_event "e1") (pg_empty 0))))
      = res (run (pg_session 2) (try_claim_event "e2") (pg_empty 0))).
Proof.
  assert (H0 : 1%nat <> 2%nat) by discriminate.
  assert (H1 : pk_ok (pg_empty 0)) by apply NoDup_nil_2.
  assert (H2 : res (run (pg_session 1) (try_claim_event "e1") (pg_empty 0)) = Ok tt)
    by (vm_compute; reflexivity).
  split; [exact H0 |]. split; [exact H1 |]. split; [exact H2 |].
  apply (claims_on_other_events 1 2 "e1" "e2" (pg_empty 0) H0 H1 H2).
Defined.

(** ** Inserting and reading back *)

Lemma get_state_run s event_id d :
  pk_ok d ->
  run (pg_session s) (_get_event_processing_state event_id) d
  = Outcome (Ok (VStatus <$> stored_status event_id (view s d))) d
            [EvCall (Execute (SelectStatus event_id))].
Proof.
  intros Hpk. unfold _get_event_processing_state. cbn.
  rewrite (select_status_stored _ _ (view_NoDup s d Hpk)).
  destruct (stored_status event_id (view s d)); reflexivity.
Qed.

Lemma insert_event_view s event_id d :
  view s (final (run (pg_session s) (_insert_event event_id) d))
  = insert_do_nothing (new_row event_id (clock d)) (view s d)
  /\ res (run (pg_session s) (_insert_event event_id) d) = Ok tt
  /\ committed (final (run (pg_session s) (_insert_event event_id) d)) = committed d
  /\ forall s', s' <> s ->
       view s' (final (run (pg_session s) (_insert_event event_id) d)) = view s' d.
Proof.
  unfold _insert_event. cbn.
  destruct (has_row event_id (view s d)) eqn:E; cbn.
  - rewrite (insert_do_nothing_conflict (new_row event_id (clock d)) _ E).
    repeat split; reflexivity.
  - rewrite view_add_write. cbn [apply_write].
    split; [reflexivity |]. split; [reflexivity |]. split; [reflexivity |].
    intros s' Hne. apply view_add_write_ne. auto.
Qed.

Lemma stored_status_insert event_id now t :
  stored_status event_id (insert_do_nothing (new_row event_id now) t)
  = Some (default PROCESSING (stored_status event_id t)).
Proof.
  unfold insert_do_nothing. cbn [new_row c.event_id].
  destruct (has_row event_id t) eqn:E.
  - destruct (stored_status event_id t) eqn:Es; [reflexivity |].
    apply stored_status_None in Es. congruence.
  - rewrite (stored_status_app_new _ _ _ E).
    apply stored_status_None in E. rewrite E. reflexivity.
Qed.



(** ** Marking, and claiming again *)

Lemma completed_row_idem event_id now r :
  completed_row event_id now (completed_row event_id now r) = completed_row event_id now r.
Proof.
  unfold completed_row. destruct (String.eqb (c.event_id r) event_id) eqn:E;
    cbn [c.event_id c.created_at]; rewrite E; reflexivity.
Qed.

Lemma update_status_idem event_id now t :
  update_status event_id now (update_status event_id now t) = update_status event_id now t.
Proof.
  unfold update_status. rewrite map_map. apply map_ext. intros r. apply completed_row_idem.
Qed.

Lemma created_at_update event_id now t :
  map c.created_at (update_status event_id now t) = map c.created_at t.
Proof.
  unfold update_status, completed_row. rewrite map_map. apply map_ext.
  intros r. destruct (String.eqb _ _); reflexivity.
Qed.

Lemma mark_as_completed_view s event_id d :
  view s (final (run (pg_session s) (mark_as_completed event_id) d))
  = update_status event_id (clock d) (view s d)
  /\ clock (final (run (pg_session s) (mark_as_completed event_id) d)) = clock d.
Proof.
  rewrite mark_as_completed_run. cbn [final].
  destruct (has_row event_id (view s d)) eqn:E.
  - rewrite view_add_write. split; reflexivity.
  - split; [| reflexivity]. unfold update_status. symmetry.
    rewrite <- (map_id (view s d)) at 2. apply map_ext_in. intros r Hr.
    unfold completed_row. destruct (String.eqb (c.event_id r) event_id) eqn:Er; [| reflexivity].
    exfalso. apply String.eqb_eq in Er. apply has_row_false in E. apply E.
    unfold keys. apply list_elem_of_fmap. exists r. split; [auto |].
    apply list_elem_of_In, Hr.
Qed.

(** X10.  [mark_as_completed] never adds or removes a row and never
    touches [event_id] or [created_at]: the session sees the same rows in
    the same order, those of the event now [COMPLETED].  Marking twice
    at the same time is marking once.  Without a row for the event it
    changes nothing at all, and with one, a claim on the event later in
    the same transaction fails with [AlreadyCompletedError]. *)
Theorem mark_as_completed_effect (s : nat) (event_id : string) (d : pg) :
  pk_ok d -> lock_available s event_id d ->
  let d1 := final (run (pg_session s) (mark_as_completed event_id) d) in
  let d2 := final (run (pg_session s) (mark_as_completed event_id) d1) in
  view s d1 = update_status event_id (clock d) (view s d)
  /\ keys (view s d1) = keys (view s d)
  /\ map c.created_at (view s d1) = map c.created_at (view s d)
  /\ view s d2 = view s d1
  /\ match has_row event_id (view s d) with
     | true =>
         res (run (pg_session s) (try_claim_event event_id) d1)
         = Err (already_completed event_id)
     | false => d1 = d
     end.
Proof.
  intros Hpk Hlock d1 d2.
  destruct (mark_as_completed_view s event_id d) as [Hv Hc]. fold d1 in Hv, Hc.
  destruct (mark_as_completed_view s event_id d1) as [Hv2 _]. fold d2 in Hv2.
  split; [exact Hv |].
  split; [rewrite Hv; apply keys_update |].
  split; [rewrite Hv; apply created_at_update |].
  split; [rewrite Hv2, Hc, Hv; apply update_status_idem |].
  destruct (has_row event_id (view s d)) eqn:E.
  - assert (Hpk1 : pk_ok d1) by (apply run_invariant, Hpk).
    assert (Hlock1 : lock_available s event_id d1).
    { unfold lock_available, d1. rewrite mark_as_completed_run, E. exact Hlock. }
    rewrite (try_claim_event_run s event_id d1 Hpk1 Hlock1), Hv.
    rewrite (stored_status_update _ _ _ E). reflexivity.
  - unfold d1. rewrite mark_as_completed_run, E. reflexivity.
Qed.

Lemma mark_as_completed_effect_witness :
  let d := final (run (pg_session 1) (try_claim_event "e1") (pg_empty 0)) in
  pk_ok d /\ lock_available 1 "e1" d
  /\ res (run (pg_session 1) (try_claim_event "e1")
              (final (run (pg_session 1) (mark_as_completed "e1") d)))
     = Err (already_completed "e1").
Proof.
  intros d.
  assert (H1 : pk_ok d) by (vm_compute; apply NoDup_nil_2).
  assert (H2 : lock_available 1 "e1" d) by (vm_compute; reflexivity).
  split; [exact H1 |]. split; [exact H2 |].
  destruct (mark_as_completed_effect 1 "e1" d H1 H2) as (_ & _ & _ & _ & H).
  assert (E : has_row "e1" (view 1 d) = true) by (vm_compute; reflexivity).
  rewrite E in H. exact H.
Defined.

(** ** After a consumer failed *)

Lemma not_completed_after_rollback sa sb event_id d :
  pk_ok d -> marks_claimed d -> lock_available sa event_id d ->
  stored_status event_id (view sa d) <> Some COMPLETED ->
  stored_status event_id (view sb (pg_rollback sa d)) <> Some COMPLETED.
Proof.
  intros Hpk Hmarks Hlock Hst.
  assert (Hcommitted : stored_status event_id (committed d) <> Some COMPLETED).
  { intros E. apply Hst.
    apply (completed_stays event_id (committed d));
      [apply view_NoDup, Hpk | apply table_le_view | exact E]. }
  rewrite view_pg_rollback. destruct (decide (sb = sa)) as [-> | Hne]; [exact Hcommitted |].
  intros E. apply Hcommitted. apply (apply_writes_completed event_id (pending_of sb d)).
  - destruct (existsb (marks event_id) (pending_of sb d)) eqn:Em; [| reflexivity].
    exfalso. specialize (Hmarks sb event_id Em).
    unfold lock_available in Hlock. rewrite Hmarks in Hlock. auto.
  - exact E.
Qed.

Lemma read_final_status_res s event_id st d :
  pk_ok d -> stored_status event_id (view s d) = Some st ->
  res (run (pg_session s) (read_final_status event_id) d) = Ok (VStatus st).
Proof.
  intros Hpk H. unfold read_final_status. cbn.
  rewrite (select_status_stored _ _ (view_NoDup s d Hpk)), H. reflexivity.
Qed.

(** X12.  A consumer claims an event and its processing then raises
    inside [async with uow]: the caller gets that exception and the store
    is rolled back.  A consumer that comes next, on any session, claims
    and completes the event and returns normally, and a session that then
    reads the status of the event with [scalar_one] gets [COMPLETED]. *)
Theorem recovery_after_failure (sa sb sc : nat) (event_id : string) (exn : exc) (d : pg) :
  pk_ok d -> marks_claimed d ->
  res (run (pg_session sa) (try_claim_event event_id) d) = Ok tt ->
  let oa := run (pg_session sa)
                (async_with (try_claim_event event_id ;; (Raise exn : coro unit))) d in
  let ob := run (pg_session sb) (claim_and_complete event_id) (final oa) in
  res oa = Err exn
  /\ final oa = pg_rollback sa d
  /\ res ob = Ok (Some tt)
  /\ stored_status event_id (committed (final ob)) = Some COMPLETED
  /\ (pending (final ob) !! sc = None ->
      res (run (pg_session sc) (read_final_status event_id) (final ob))
      = Ok (VStatus COMPLETED)).
Proof.
  intros Hpk Hmarks Hok oa ob.
  destruct (try_claim_event_ok sa event_id d Hpk Hok) as [Hlock Hst].
  set (body := (try_claim_event event_id ;; Raise exn) : coro unit).
  assert (Hbody : only_executes body).
  { apply only_executes_bind; [apply only_executes_claim | intros _; exact I]. }
  assert (Hres : res (run (pg_session sa) body d) = Err exn).
  { unfold body. rewrite run_bind, Hok. reflexivity. }
  assert (Hoa : res oa = Err exn /\ final oa = pg_rollback sa d).
  { unfold oa. fold body. destruct (async_with_pg sa body d) as [-> ->].
    rewrite Hres. split; [reflexivity | apply rollback_undoes, Hbody]. }
  destruct Hoa as [Hra Hfa].
  split; [exact Hra |]. split; [exact Hfa |].
  assert (Hpk2 : pk_ok (final oa)) by (rewrite Hfa; exact Hpk).
  assert (Hlock2 : lock_available sb event_id (final oa)).
  { unfold lock_available. rewrite Hfa. cbn [pg_rollback locks].
    rewrite (release_frees sa _ (locks d) Hlock). exact I. }
  assert (Hst2 : stored_status event_id (view sb (final oa)) <> Some COMPLETED).
  { rewrite Hfa. apply not_completed_after_rollback; assumption. }
  pose proof (claim_and_complete_run sb event_id (final oa) Hpk2 Hlock2) as Hrun.
  cbv zeta in Hrun. fold ob in Hrun.
  assert (H : res ob = Ok (Some tt)
              /\ stored_status event_id (committed (final ob)) = Some COMPLETED).
  { destruct (stored_status event_id (view sb (final oa))) as [[|] |];
      [| contradiction Hst2; reflexivity |];
      destruct Hrun as [Hr Hc]; (split; [exact Hr |]); rewrite Hc;
      apply stored_status_update, (has_row_insert (new_row event_id (clock (final oa)))). }
  destruct H as [Hrb Hcb].
  split; [exact Hrb |]. split; [exact Hcb |].
  intros Hidle.
  assert (Hpk3 : pk_ok (final ob)) by (apply run_invariant, Hpk2).
  assert (Hview : view sc (final ob) = committed (final ob)).
  { unfold view, pending_of. rewrite Hidle. reflexivity. }
  apply (read_final_status_res sc event_id COMPLETED (final ob) Hpk3).
  rewrite Hview. exact Hcb.
Qed.

Lemma recovery_after_failure_witness :
  pk_ok (pg_empty 0) /\ marks_claimed (pg_empty 0)
  /\ res (run (pg_session 1) (try_claim_event "e1") (pg_empty 0)) = Ok tt
  /\ res (run (pg_session 2) (claim_and_complete "e1")
              (final (run (pg_session 1)
                          (async_with (try_claim_event "e1" ;;
                                       (Raise (Exc ValueError "Simulating a processing failure")
                                        : coro unit)))
                          (pg_empty 0))))
     = Ok (Some tt).
Proof.
  assert (H1 : pk_ok (pg_empty 0)) by apply NoDup_nil_2.
  assert (H2 : res (run (pg_session 1) (try_claim_event "e1") (pg_empty 0)) = Ok tt)
    by (vm_compute; reflexivity).
  split; [exact H1 |]. split; [apply marks_claimed_empty |]. split; [exact H2 |].
  destruct (recovery_after_failure 1 2 3 "e1" (Exc ValueError "Simulating a processing failure")
              (pg_empty 0) H1 (marks_claimed_empty 0) H2) as (_ & _ & H & _).
  exact H.
Defined.

Lemma marks_claimed_operation_witness :
  pk_ok (pg_empty 0) /\ marks_claimed (pg_empty 0)
  /\ marks_claimed (final (run (pg_session 1) (coro_of (OpTryClaimEvent "e1")) (pg_empty 0))).
Proof.
  assert (H1 : pk_ok (pg_empty 0)) by apply NoDup_nil_2.
  split; [exact H1 |]. split; [apply marks_claimed_empty |].
  apply (marks_claimed_operation 1 (OpTryClaimEvent "e1") (pg_empty 0) H1
           (marks_claimed_empty 0) I).
Defined.

(** ** A consumer that does not process *)



(** ** Catching the errors of a claim by class *)



(** ** Committing and rolling back by hand *)

Lemma idle_commit_id s d : idle s d -> pg_commit s d = d.
Proof.
  intros Hidle. pose proof (idle_rollback_id s d Hidle) as Hr.
  unfold pg_commit. rewrite (view_idle s d Hidle). exact Hr.
Qed.

(** X15.  The explicit [commit] and [rollback] of the unit of work, on
    the store: a commit makes the committed table what the session saw,
    a rollback leaves it as it was.  A rollback after a commit undoes
    nothing, a commit after a rollback commits nothing, and a second
    commit changes nothing.  Once a session has committed, a session
    without pending writes sees what it saw. *)
Theorem explicit_commit_rollback (s : nat) (d : pg) :
  let committed_store := final (run (pg_session s) commit d) in
  let rolled_back := final (run (pg_session s) rollback d) in
  committed committed_store = view s d
  /\ committed rolled_back = committed d
  /\ final (run (pg_session s) (commit ;; rollback) d) = committed_store
  /\ final (run (pg_session s) (rollback ;; commit) d) = rolled_back
  /\ final (run (pg_session s) (commit ;; commit) d) = committed_store
  /\ (forall s', s' <> s -> pending d !! s' = None -> view s' committed_store = view s d).
Proof.
  intros committed_store rolled_back. subst committed_store rolled_back.
  unfold commit, rollback. cbn.
  split; [reflexivity |]. split; [reflexivity |].
  split; [apply idle_rollback_id, idle_after_commit |].
  split; [apply idle_commit_id, idle_after_rollback |].
  split; [apply idle_commit_id, idle_after_commit |].
  intros s' Hne Hp. unfold view at 1, pending_of, pg_commit. cbn [pending committed].
  rewrite lookup_delete_ne by auto. rewrite Hp. reflexivity.
Qed.

(** ** Test vectors

    The digests and keys below are those [hashlib] and [int.from_bytes]
    give. *)

Example sha256_constants :
  length SHA256.K = 64%nat
  /\ firstn 2 SHA256.K = [0x428a2f98; 0x71374491]
  /\ last SHA256.K = Some 0xc67178f2
  /\ SHA256.ha SHA256.H0 = 0x6a09e667 /\ SHA256.hh SHA256.H0 = 0x5be0cd19.
Proof. vm_compute. repeat split. Qed.
Example sha_abc : SHA256.be_word (SHA256.sha256 (encode "abc")) = 0xba7816bf8f01cfea414140de5dae2223b00361a396177a9cb410ff61f20015ad.
Proof. vm_compute. reflexivity. Qed.
Example sha_empty : SHA256.be_word (SHA256.sha256 (encode "")) = 0xe3b0c44298fc1c149afbf4c8996fb92427ae41e4649b934ca495991b7852b855.
Proof. vm_compute. reflexivity. Qed.
Example sha_64 : SHA256.be_word (SHA256.sha256 (repeat 97 64)) = 0xffe054fe7ae0cb6dc65c3af9b61d5209f439851db43d0ba5997337df154668eb.
Proof. vm_compute. reflexivity. Qed.
Example sha_56 : SHA256.be_word (SHA256.sha256 (repeat 97 56)) = 0xb35439a4ac6f0948b6d6f9e3c6af0f5f590ce20f1bde7090ef7970686ec6738a.
Proof. vm_compute. reflexivity. Qed.
Example key_abc : _get_lock_key_for_event "abc" = -5010229573455851542.
Proof. vm_compute. reflexivity. Qed.
Example key_uuid : _get_lock_key_for_event "3f2c7a1e-1b9d-4f6e-9a43-0d6f7f8f2b11" = 1509807843087205600.
Proof. vm_compute. reflexivity. Qed.
